(** * pkg/prom/query.go: bounded-concurrency Prometheus query dispatch

    A shallow embedding of [Context], [NewContext], [QueryAll], [Query] and
    [query] of package [prom], with the goroutines of [Query] run under an
    interleaving semantics, and the properties of the dispatcher proved over
    it. *)

From Stdlib Require Import ZArith Lia Ascii String Strings.Byte List Floats.PrimFloat.
From Stdlib Require Import Numbers.DecimalString.
From stdpp Require Import base list strings gmap sorting.

Set Warnings "-register-all".

Local Open Scope Z_scope.

(* ===================================================================== *)
(** ** Values of the Go program *)

(** A Go [error] value: what the program observes of it is its [Error()]
    text.  A nil error is [None] in an [option error]. *)
Record error : Type := errorString { Error : string }.

(** The verb [%d] of [fmt.Errorf]: an integer in decimal. *)
Definition itoa (n : Z) : string := NilZero.string_of_int (Z.to_int n).

(** The value an [interface{}] holds after [json.Unmarshal]: nil, bool,
    float64, string, []interface{} or map[string]interface{}. *)
Inductive json : Type :=
| JNull
| JBool (b : bool)
| JNumber (f : float)
| JString (s : string)
| JArray (l : list json)
| JObject (m : list (string * json)).

(** A Go slice: [None] is the nil slice, [Some l] a non-nil slice holding
    the elements [l]. *)
Definition slice (A : Type) : Type := option (list A).

Definition elems {A} (s : slice A) : list A := default [] s.
Definition len {A} (s : slice A) : nat := length (elems s).
Definition append {A} (s : slice A) (x : A) : slice A := Some (elems s ++ [x]).

(* --------------------------------------------------------------------- *)
(** *** net/url and net/http, as far as [query] uses them *)

Record URL : Type := mkURL
  { Scheme : string; Host : string; Path : string; RawQuery : string }.

Definition set_RawQuery (u : URL) (raw : string) : URL :=
  {| Scheme := Scheme u; Host := Host u; Path := Path u; RawQuery := raw |}.

(** [url.Values] is a [map[string][]string]. *)
Abbreviation Values := (gmap string (list string)).

(** [Values.Set]: [v[key] = []string{value}]. *)
Definition Values_Set (v : Values) (key value : string) : Values :=
  <[key := [value]]> v.

Definition upperhex : string := "0123456789ABCDEF".

Definition hexdigit (n : N) : ascii :=
  default "0"%char (String.get (N.to_nat n) upperhex).

Definition is_alnum (c : ascii) : bool :=
  let n := N_of_ascii c in
  ((97 <=? n) && (n <=? 122) || (65 <=? n) && (n <=? 90)
   || (48 <=? n) && (n <=? 57))%N.

(** [shouldEscape(c, encodeQueryComponent)]: everything is escaped but the
    unreserved characters. *)
Definition shouldEscape (c : ascii) : bool :=
  negb (is_alnum c
        || Ascii.eqb c "-" || Ascii.eqb c "_" || Ascii.eqb c "."
        || Ascii.eqb c "~").

(** [url.QueryEscape]. *)
Fixpoint QueryEscape (s : string) : string :=
  match s with
  | EmptyString => EmptyString
  | String c s' =>
      if Ascii.eqb c " " then String "+" (QueryEscape s')
      else if shouldEscape c then
        let n := N_of_ascii c in
        String "%" (String (hexdigit (n / 16)) (String (hexdigit (n mod 16))
                                                  (QueryEscape s')))
      else String c (QueryEscape s')
  end.

(** [Values.Encode]: the keys sorted, every value of a key written as
    [key=value], both escaped, the pieces joined by [&]. *)
Definition Values_segments (v : Values) : list string :=
  let keys := merge_sort (λ a b : string, String.leb a b) (map fst (map_to_list v)) in
  flat_map (λ k, map (λ x, QueryEscape k +:+ "=" +:+ QueryEscape x)
                     (default [] (v !! k))) keys.

Definition Values_Encode (v : Values) : string :=
  String.concat "&" (Values_segments v).

Record Request : Type := mkRequest
  { Method : string; ReqURL : URL; Body : option (list byte) }.

Definition MethodPost : string := "POST".

(** [httpguts.IsTokenRune] on a byte, for [validMethod]. *)
Definition isTokenRune (c : ascii) : bool :=
  is_alnum c
  || existsb (Ascii.eqb c) (list_ascii_of_string "!#$%&'*+-.^_`|~").

Definition validMethod (method : string) : bool :=
  negb (String.eqb method "")
  && forallb isTokenRune (list_ascii_of_string method).

Record Response : Type := mkResponse { StatusCode : Z }.

(** What [Client.Do] returns: [(resp, body, warnings, err)]. *)
Record DoResult : Type := mkDoResult
  { resp : option Response;
    body : list byte;
    warnings : list string;
    err : option error }.

(* --------------------------------------------------------------------- *)
(** *** Results and channels *)

(** Modelled from the spec: the structured result of the Result Parser
    ([QueryResults] and [NewQueryResults] are declared in package [prom]
    outside query.go).  The spec names a status indicator and a nested result
    payload; the zero value is the empty result. *)
Record QueryResult : Type := mkQueryResult
  { Status : string; Payload : json }.

Definition QueryResults : Type := option QueryResult.

Definition zeroResults : QueryResults := None.

(** A [QueryResultsChan] is named by its allocation index. *)
Abbreviation QueryResultsChan := nat.

(* ===================================================================== *)
(** ** Code of a goroutine *)

(** The operations a goroutine of this package performs on what it shares
    with the others or with the outside, each with the rest of the code
    after it.  [json.Unmarshal] and [NewQueryResults] compute their result
    from their argument alone; they are operations here so that the moment
    they run is visible among the others. *)
Inductive prog (A : Type) : Type :=
| Ret (a : A)
| SemAcquire (k : prog A)                      (* ctx.semaphore.Acquire() *)
| SemReturn (k : prog A)                       (* ctx.semaphore.Return() *)
| ClientDo (req : Request) (k : DoResult -> prog A)      (* ctx.Client.Do *)
| KlogInfof (v : Z) (msg : string) (k : prog A)   (* klog.V(v).Infof(...) *)
| JsonUnmarshal (data : list byte) (k : json + error -> prog A)
| ECReport (e : option error) (k : prog A)  (* ctx.ErrorCollector.Report *)
| CallNewQueryResults (raw : json)
    (k : QueryResults * option error -> prog A)
| ChanSend (ch : QueryResultsChan) (v : QueryResults) (k : prog A)
| ChanClose (ch : QueryResultsChan) (k : prog A).

Arguments Ret {A} a.
Arguments SemAcquire {A} k.
Arguments SemReturn {A} k.
Arguments ClientDo {A} req k.
Arguments KlogInfof {A} v msg k.
Arguments JsonUnmarshal {A} data k.
Arguments ECReport {A} e k.
Arguments CallNewQueryResults {A} raw k.
Arguments ChanSend {A} ch v k.
Arguments ChanClose {A} ch k.

Fixpoint bind {A B} (m : prog A) (f : A -> prog B) : prog B :=
  match m with
  | Ret a => f a
  | SemAcquire k => SemAcquire (bind k f)
  | SemReturn k => SemReturn (bind k f)
  | ClientDo req k => ClientDo req (fun r => bind (k r) f)
  | KlogInfof v msg k => KlogInfof v msg (bind k f)
  | JsonUnmarshal data k => JsonUnmarshal data (fun r => bind (k r) f)
  | ECReport e k => ECReport e (bind k f)
  | CallNewQueryResults raw k =>
      CallNewQueryResults raw (fun r => bind (k r) f)
  | ChanSend ch v k => ChanSend ch v (bind k f)
  | ChanClose ch k => ChanClose ch (bind k f)
  end.

Declare Scope prog_scope.
Delimit Scope prog_scope with prog.
Bind Scope prog_scope with prog.

Notation "x <- m ;; k" := (bind m (fun x => k))
  (at level 100, m at next level, right associativity) : prog_scope.
Notation "m ;; k" := (bind m (fun _ => k))
  (at level 100, right associativity) : prog_scope.

Definition acquire : prog unit := SemAcquire (Ret tt).
Definition release : prog unit := SemReturn (Ret tt).
Definition do (req : Request) : prog DoResult := ClientDo req Ret.
Definition infof (v : Z) (msg : string) : prog unit := KlogInfof v msg (Ret tt).
Definition unmarshal (data : list byte) : prog (json + error) :=
  JsonUnmarshal data Ret.
Definition report (e : option error) : prog unit := ECReport e (Ret tt).
Definition parse (raw : json) : prog (QueryResults * option error) :=
  CallNewQueryResults raw Ret.
Definition send (ch : QueryResultsChan) (v : QueryResults) : prog unit :=
  ChanSend ch v (Ret tt).

(** [defer f()] at the top of a function body: [f] runs when the body has
    produced the function's results, before they reach the caller. *)
Definition defer {A} (deferred : prog unit) (body : prog A) : prog A :=
  (a <- body ;; deferred ;; Ret a)%prog.

(** [for _, x := range l { f(x) }]. *)
Fixpoint range {A} (l : list A) (f : A -> prog unit) : prog unit :=
  match l with
  | [] => Ret tt
  | x :: l' => (f x ;; range l' f)%prog
  end.

(* ===================================================================== *)
(** ** What the package is given *)

(** The collaborators of query.go that are no code of the repository: the
    [prometheus.Client] held by the [Context], and the functions of net/url,
    encoding/json and strconv it calls.  [Client_Do i req] is the answer of
    the backend to the request [req] issued by goroutine number [i]; a
    goroutine issues at most one request, so this fixes nothing about the
    backend.  [statusKey] and [payloadKey] name the two top-level fields the
    Result Parser looks for, which the spec leaves unnamed. *)
Class Externals : Type := mkExternals
  { Client_URL : string -> option (gmap string string) -> URL;
    Client_Do : nat -> Request -> DoResult;
    url_ParseQuery : string -> Values;
    url_String : URL -> string;
    url_Parse : string -> URL + error;
    json_Unmarshal : list byte -> json + error;
    strconv_Quote : string -> string;
    statusKey : string;
    payloadKey : string }.

Section Prom.
Context `{Ext : Externals}.

(** [URL.Query()]: the parsed [RawQuery]. *)
Definition URL_Query (u : URL) : Values := url_ParseQuery (RawQuery u).

(** [http.NewRequest(method, url, body)]. *)
Definition http_NewRequest (method url : string) (body : option (list byte))
  : Request + error :=
  let method := if String.eqb method "" then "GET"%string else method in
  if negb (validMethod method) then
    inr (errorString ("net/http: invalid method " +:+ strconv_Quote method))
  else
    match url_Parse url with
    | inr e => inr e
    | inl u => inl (mkRequest method u body)
    end.

Fixpoint assoc (key : string) (m : list (string * json)) : option json :=
  match m with
  | [] => None
  | (k, v) :: m' => if String.eqb k key then Some v else assoc key m'
  end.

(** Modelled from the spec: [NewQueryResults], the Result Parser of package
    [prom], which query.go calls and does not define.  It validates the
    top-level shape, a status indicator and a nested result payload, and
    converts it to the structured result; on any shape mismatch (missing
    fields, unexpected types) it returns a zero-value result and a parse
    error. *)
Definition NewQueryResults (raw : json) : QueryResults * option error :=
  match raw with
  | JObject m =>
      match assoc statusKey m, assoc payloadKey m with
      | Some (JString st), Some payload =>
          (Some (mkQueryResult st payload), None)
      | Some (JString _), None =>
          (zeroResults, Some (errorString ("missing field " +:+ payloadKey)))
      | Some _, _ =>
          (zeroResults, Some (errorString ("unexpected type of " +:+ statusKey)))
      | None, _ =>
          (zeroResults, Some (errorString ("missing field " +:+ statusKey)))
      end
  | _ => (zeroResults, Some (errorString "unexpected type of query result"))
  end.

(* --------------------------------------------------------------------- *)
(** *** query.go *)

Definition apiPrefix : string := "/api/v1".
Definition epQuery : string := apiPrefix +:+ "/query".

(** [func (ctx *Context) query(query string) (interface{}, error)] *)
Definition query (query : string) : prog (json * option error) :=
  (acquire ;;
   defer release
     (let u := Client_URL epQuery None in
      let q := URL_Query u in
      let q := Values_Set q "query" query in
      let u := set_RawQuery u (Values_Encode q) in
      match http_NewRequest MethodPost (url_String u) None with
      | inr err => Ret (JNull, Some err)
      | inl req =>
          r <- do req ;;
          range (warnings r)
            (fun w => infof 3 ("Warning '" +:+ w +:+ "' fetching query '"
                               +:+ query +:+ "'")) ;;
          match err r with
          | Some err =>
              match resp r with
              | None =>
                  Ret (JNull,
                       Some (errorString ("Error " +:+ Error err
                                          +:+ " fetching query " +:+ query)))
              | Some resp =>
                  Ret (JNull,
                       Some (errorString (itoa (StatusCode resp) +:+ " Error "
                                          +:+ Error err
                                          +:+ " fetching query " +:+ query)))
              end
          | None =>
              d <- unmarshal (body r) ;;
              match d with
              | inr err =>
                  Ret (JNull,
                       Some (errorString ("Error " +:+ Error err
                                          +:+ " fetching query " +:+ query)))
              | inl toReturn => Ret (toReturn, None)
              end
          end
      end))%prog.

(** The body of the goroutine that [Query] starts. *)
Definition worker (q : string) (resCh : QueryResultsChan) : prog unit :=
  (r <- query q ;;
   let '(raw, promErr) := r in
   report promErr ;;
   p <- parse raw ;;
   let '(results, parseErr) := p in
   report parseErr ;;
   send resCh results)%prog.

(* --------------------------------------------------------------------- *)
(** *** pkg/util: the semaphore and the error collector *)

(** Modelled from the spec: [util.Semaphore], the Admission Gate, which
    query.go uses and does not define.  It holds a fixed capacity and a
    count of held permits; the available permits are [capacity - held].
    [Acquire] suspends the caller until a permit is available and then takes
    it: [None] says that the caller stays suspended.  [Return] gives a permit
    back. *)
Record Semaphore : Type := mkSemaphore { capacity : Z; held : Z }.

Definition NewSemaphore (max : Z) : Semaphore := mkSemaphore max 0.

Definition Semaphore_Acquire (s : Semaphore) : option Semaphore :=
  if held s <? capacity s then Some (mkSemaphore (capacity s) (held s + 1))
  else None.

Definition Semaphore_Return (s : Semaphore) : Semaphore :=
  mkSemaphore (capacity s) (held s - 1).

(** Modelled from the spec: [util.ErrorCollector], the Error Aggregator,
    which query.go uses and does not define: an ordered sequence of errors;
    [Report] appends a non-nil error and does nothing for a nil one;
    [Errors] returns a snapshot of the sequence. *)
Definition ErrorCollector : Type := list error.

Definition ErrorCollector_Report (ec : ErrorCollector) (e : option error)
  : ErrorCollector :=
  match e with
  | Some e => ec ++ [e]
  | None => ec
  end.

Definition ErrorCollector_Errors (ec : ErrorCollector) : list error := ec.

(* --------------------------------------------------------------------- *)
(** *** The Context and the running program *)

(** [type Context struct]; its [Client] is the one of [Externals]. *)
Record Context : Type := mkContext
  { collector : ErrorCollector;     (* ErrorCollector *util.ErrorCollector *)
    semaphore : Semaphore }.

(** [func NewContext(client prometheus.Client) *Context] *)
Definition NewContext : Context :=
  let ec := [] in
  let sem := NewSemaphore 20 in
  mkContext ec sem.

(** An unbuffered channel: the values its receiver has taken from it so
    far, and whether it has been closed. *)
Record Chan : Type := mkChan { received : list QueryResults; closed : bool }.

Definition make_chan : Chan := mkChan [] false.

(** A goroutine is at some point of its code, or inside [Client.Do] with
    its request sent and the response awaited. *)
Inductive goroutine : Type :=
| Ready (p : prog unit)
| InFlight (req : Request) (k : DoResult -> prog unit).

Record World : Type := mkWorld
  { ctx : Context;
    goroutines : list goroutine;
    chans : list Chan;
    klog : list (Z * string) }.

Definition set_ctx (w : World) (c : Context) : World :=
  mkWorld c (goroutines w) (chans w) (klog w).
Definition set_goroutines (w : World) (gs : list goroutine) : World :=
  mkWorld (ctx w) gs (chans w) (klog w).
Definition set_chans (w : World) (cs : list Chan) : World :=
  mkWorld (ctx w) (goroutines w) cs (klog w).
Definition set_klog (w : World) (l : list (Z * string)) : World :=
  mkWorld (ctx w) (goroutines w) (chans w) l.

(** The program before any query: a context and nothing else. *)
Definition start (c : Context) : World := mkWorld c [] [] [].

(** [func (ctx *Context) Errors() []error] *)
Definition Errors (w : World) : list error :=
  ErrorCollector_Errors (collector (ctx w)).

(** [func (ctx *Context) Query(query string) QueryResultsChan] *)
Definition Query (query : string) (w : World) : QueryResultsChan * World :=
  let resCh := length (chans w) in                (* make(QueryResultsChan) *)
  let w := set_chans w (chans w ++ [make_chan]) in
  let w := set_goroutines w (goroutines w ++ [Ready (worker query resCh)]) in
  (resCh, w).                                                 (* go func... *)

Fixpoint QueryAll_range (queries : list string)
  (resChs : slice QueryResultsChan) (w : World)
  : slice QueryResultsChan * World :=
  match queries with
  | [] => (resChs, w)
  | q :: queries' =>
      let '(ch, w) := Query q w in
      QueryAll_range queries' (append resChs ch) w
  end.

(** [func (ctx *Context) QueryAll(queries ...string) []QueryResultsChan] *)
Definition QueryAll (queries : list string) (w : World)
  : slice QueryResultsChan * World :=
  let resChs := Some [] in
  QueryAll_range queries resChs w.

(* --------------------------------------------------------------------- *)
(** *** Steps of goroutines *)

Inductive event : Type :=
| EvAcquire
| EvReturn
| EvIssue (req : Request)
| EvResponse (r : DoResult)
| EvInfof (v : Z) (msg : string)
| EvUnmarshal (data : list byte)
| EvReport (e : option error)
| EvParse (raw : json)
| EvSend (ch : QueryResultsChan) (v : QueryResults)
| EvClose (ch : QueryResultsChan).

(** The next operation of goroutine [i] and the goroutine after it. *)
Definition advance (i : nat) (g : goroutine) : option (event * goroutine) :=
  match g with
  | InFlight req k =>
      let r := Client_Do i req in Some (EvResponse r, Ready (k r))
  | Ready p =>
      match p with
      | Ret _ => None
      | SemAcquire k => Some (EvAcquire, Ready k)
      | SemReturn k => Some (EvReturn, Ready k)
      | ClientDo req k => Some (EvIssue req, InFlight req k)
      | KlogInfof v msg k => Some (EvInfof v msg, Ready k)
      | JsonUnmarshal data k =>
          Some (EvUnmarshal data, Ready (k (json_Unmarshal data)))
      | ECReport e k => Some (EvReport e, Ready k)
      | CallNewQueryResults raw k =>
          Some (EvParse raw, Ready (k (NewQueryResults raw)))
      | ChanSend ch v k => Some (EvSend ch v, Ready k)
      | ChanClose ch k => Some (EvClose ch, Ready k)
      end
  end.

(** What an operation does to the shared state; [None] when it cannot take
    place now: [Acquire] with no permit available, or a send or close on a
    closed channel, which panics.  A send takes place when the receiver takes
    the value (the channels are unbuffered). *)
Definition perform (ev : event) (w : World) : option World :=
  match ev with
  | EvAcquire =>
      sem ← Semaphore_Acquire (semaphore (ctx w));
      Some (set_ctx w (mkContext (collector (ctx w)) sem))
  | EvReturn =>
      Some (set_ctx w (mkContext (collector (ctx w))
                         (Semaphore_Return (semaphore (ctx w)))))
  | EvReport e =>
      Some (set_ctx w (mkContext (ErrorCollector_Report (collector (ctx w)) e)
                         (semaphore (ctx w))))
  | EvInfof v msg => Some (set_klog w (klog w ++ [(v, msg)]))
  | EvSend ch v =>
      c ← chans w !! ch;
      if closed c then None
      else Some (set_chans w (<[ch := mkChan (received c ++ [v]) false]> (chans w)))
  | EvClose ch =>
      c ← chans w !! ch;
      if closed c then None
      else Some (set_chans w (<[ch := mkChan (received c) true]> (chans w)))
  | EvIssue _ | EvResponse _ | EvUnmarshal _ | EvParse _ => Some w
  end.

(** Goroutine [i] takes its next step. *)
Definition step (i : nat) (w : World) : option (event * World) :=
  g ← goroutines w !! i;
  '(ev, g') ← advance i g;
  w' ← perform ev w;
  Some (ev, set_goroutines w' (<[i := g']> (goroutines w'))).

(** What happens next is either the caller calling [Query], or a goroutine
    taking a step. *)
Inductive action : Type :=
| Call (q : string)
| Step (i : nat).

Definition act (a : action) (w : World) : option World :=
  match a with
  | Call q => Some (snd (Query q w))
  | Step i => snd <$> step i w
  end.

Fixpoint run (sched : list action) (w : World) : option World :=
  match sched with
  | [] => Some w
  | a :: sched' => w' ← act a w; run sched' w'
  end.

(** The number of requests sent to the backend and not yet answered. *)
Definition is_inflight (g : goroutine) : bool :=
  match g with InFlight _ _ => true | Ready _ => false end.

Definition inflight (w : World) : nat :=
  length (filter (λ g, is_inflight g = true) (goroutines w)).

Definition is_done (g : goroutine) : bool :=
  match g with Ready (Ret _) => true | _ => false end.

Definition all_done (w : World) : bool := forallb is_done (goroutines w).

(* --------------------------------------------------------------------- *)
(** *** The operations of one goroutine, in order *)

(** The operations [p] performs from now on when run by goroutine [i], and
    the value it returns. *)
Fixpoint events {A} (i : nat) (p : prog A) : list event :=
  match p with
  | Ret _ => []
  | SemAcquire k => EvAcquire :: events i k
  | SemReturn k => EvReturn :: events i k
  | ClientDo req k =>
      let r := Client_Do i req in
      EvIssue req :: EvResponse r :: events i (k r)
  | KlogInfof v msg k => EvInfof v msg :: events i k
  | JsonUnmarshal data k =>
      EvUnmarshal data :: events i (k (json_Unmarshal data))
  | ECReport e k => EvReport e :: events i k
  | CallNewQueryResults raw k =>
      EvParse raw :: events i (k (NewQueryResults raw))
  | ChanSend ch v k => EvSend ch v :: events i k
  | ChanClose ch k => EvClose ch :: events i k
  end.

Fixpoint result {A} (i : nat) (p : prog A) : A :=
  match p with
  | Ret a => a
  | SemAcquire k | SemReturn k | KlogInfof _ _ k | ECReport _ k
  | ChanSend _ _ k | ChanClose _ k => result i k
  | ClientDo req k => result i (k (Client_Do i req))
  | JsonUnmarshal data k => result i (k (json_Unmarshal data))
  | CallNewQueryResults raw k => result i (k (NewQueryResults raw))
  end.

Definition trace (i : nat) (g : goroutine) : list event :=
  match g with
  | Ready p => events i p
  | InFlight req k =>
      let r := Client_Do i req in EvResponse r :: events i (k r)
  end.

(* --------------------------------------------------------------------- *)
(** *** Vocabulary of the statements *)

(** The request [query] builds for a query text, or the error of
    [http.NewRequest]. *)
Definition query_request (q : string) : Request + error :=
  let u := Client_URL epQuery None in
  let u := set_RawQuery u (Values_Encode (Values_Set (URL_Query u) "query" q)) in
  http_NewRequest MethodPost (url_String u) None.

(** The operations of [query q] between taking the permit and giving it
    back, for goroutine [i]. *)
Definition query_inner (i : nat) (q : string) : list event :=
  match query_request q with
  | inr _ => []
  | inl req =>
      let r := Client_Do i req in
      EvIssue req :: EvResponse r ::
      map (fun w => EvInfof 3 ("Warning '" +:+ w +:+ "' fetching query '"
                               +:+ q +:+ "'")) (warnings r)
      ++ match err r with
         | Some _ => []
         | None => [EvUnmarshal (body r)]
         end
  end.

(** What [query q] returns to goroutine [i], and what the goroutine then
    gets from the parser. *)
Definition query_result (i : nat) (q : string) : json * option error :=
  result i (query q).
Definition promErr_of (i : nat) (q : string) : option error :=
  snd (query_result i q).
Definition results_of (i : nat) (q : string) : QueryResults :=
  fst (NewQueryResults (fst (query_result i q))).
Definition parseErr_of (i : nat) (q : string) : option error :=
  snd (NewQueryResults (fst (query_result i q))).

(** How the query of goroutine [i] ends: [query] failed (request
    construction, transport or decode), or only the parser failed, or
    neither. *)
Inductive outcome : Type := Succeeded | FailedParse | FailedQuery.

Definition outcome_of (i : nat) (q : string) : outcome :=
  match promErr_of i q, parseErr_of i q with
  | Some _, _ => FailedQuery
  | None, Some _ => FailedParse
  | None, None => Succeeded
  end.

Definition failed (o : outcome) : bool :=
  match o with Succeeded => false | _ => true end.

(** The errors a sequence of operations appends to the collector. *)
Fixpoint reports (tr : list event) : list error :=
  match tr with
  | [] => []
  | EvReport (Some e) :: tr' => e :: reports tr'
  | _ :: tr' => reports tr'
  end.

(** The requests a sequence of operations sends to the backend. *)
Fixpoint issues (tr : list event) : list Request :=
  match tr with
  | [] => []
  | EvIssue req :: tr' => req :: issues tr'
  | _ :: tr' => issues tr'
  end.

(** The values a sequence of operations sends on channel [ch]. *)
Fixpoint sends (ch : QueryResultsChan) (tr : list event) : list QueryResults :=
  match tr with
  | [] => []
  | EvSend ch' v :: tr' =>
      if Nat.eqb ch' ch then v :: sends ch tr' else sends ch tr'
  | _ :: tr' => sends ch tr'
  end.

(** No send and no close. *)
Definition quiet (ev : event) : bool :=
  match ev with EvSend _ _ | EvClose _ => false | _ => true end.

(** An operation on the semaphore. *)
Definition gate_op (ev : event) : bool :=
  match ev with EvAcquire | EvReturn => true | _ => false end.

(** The permits a goroutine holds after a sequence of its operations. *)
Fixpoint permits (tr : list event) : Z :=
  match tr with
  | [] => 0
  | EvAcquire :: tr' => permits tr' + 1
  | EvReturn :: tr' => permits tr' - 1
  | _ :: tr' => permits tr'
  end.

(** Kinds of operations. *)
Definition network_op (ev : event) : bool :=
  match ev with EvIssue _ | EvResponse _ => true | _ => false end.
Definition decode_op (ev : event) : bool :=
  match ev with EvUnmarshal _ => true | _ => false end.
Definition parse_op (ev : event) : bool :=
  match ev with EvParse _ => true | _ => false end.
Definition report_op (ev : event) : bool :=
  match ev with EvReport _ => true | _ => false end.
Definition send_op (ev : event) : bool :=
  match ev with EvSend _ _ => true | _ => false end.
Definition close_op (ev : event) : bool :=
  match ev with EvClose _ => true | _ => false end.

(** The permits a goroutine holds at the moment of each of its operations of
    the kind [P], when it holds [h] before the first operation of [tr]. *)
Fixpoint holding_at (P : event -> bool) (h : Z) (tr : list event) : list Z :=
  match tr with
  | [] => []
  | ev :: tr' =>
      let h' := match ev with
                | EvAcquire => h + 1
                | EvReturn => h - 1
                | _ => h
                end in
      if P ev then h :: holding_at P h' tr' else holding_at P h' tr'
  end.

(** Some close of [ch] comes after the first send on [ch]. *)
Fixpoint closes_after_send (ch : QueryResultsChan) (tr : list event) : bool :=
  match tr with
  | [] => false
  | EvSend ch' _ :: tr' =>
      if Nat.eqb ch' ch then
        existsb (fun ev => match ev with
                           | EvClose c => Nat.eqb c ch
                           | _ => false
                           end) tr'
      else closes_after_send ch tr'
  | _ :: tr' => closes_after_send ch tr'
  end.

(** The number of errors a goroutine has still to report. *)
Definition pending (i : nat) (g : goroutine) : nat :=
  length (reports (trace i g)).

(** The number of entries a query leaves in the collector. *)
Definition entries (o : outcome) : nat :=
  match o with Succeeded => 0 | FailedParse => 1 | FailedQuery => 2 end.

(** The sequence of operations ends with the send of [v] on channel [j],
    and nothing before it sends or closes. *)
Definition last_send (j : nat) (v : QueryResults) (tr : list event) : Prop :=
  exists pre, tr = pre ++ [EvSend j v] /\ forallb quiet pre = true.

(** Goroutine [j], started for the query [q], and its channel: either the
    channel is open and empty and the goroutine has its one send ahead, or
    the goroutine is done and the channel, still open, has delivered the
    result of [q] and nothing else. *)
Definition chan_ok (j : nat) (q : string) (g : goroutine) (c : Chan) : Prop :=
  (c = mkChan [] false /\ last_send j (results_of j q) (trace j g)) \/
  (c = mkChan [results_of j q] false /\ is_done g = true).

(** The queries the caller passes to [Query] in a schedule, in order. *)
Fixpoint calls (sched : list action) : list string :=
  match sched with
  | [] => []
  | Call q :: sched' => q :: calls sched'
  | Step _ :: sched' => calls sched'
  end.

(** Sum over a list with the positions of its elements, the first one being
    at [n]. *)
Fixpoint isum {A} (f : nat -> A -> nat) (n : nat) (l : list A) : nat :=
  match l with
  | [] => 0
  | x :: l' => f n x + isum f (S n) l'
  end.

(* --------------------------------------------------------------------- *)
(** *** Statements of the specification that the code does not satisfy

    Each is stated here as the specification has it; they are refuted on the
    sample collaborators, and what holds instead is proved for all
    collaborators. *)

(** The worker of every query sends one value on its channel and then
    closes the channel. *)
Definition sends_once_then_closes : Prop :=
  forall (i : nat) (q : string) (ch : QueryResultsChan),
    length (sends ch (events i (worker q ch))) = 1%nat /\
    closes_after_send ch (events i (worker q ch)) = true.

(** In every worker, the decode and the parse are performed with no permit
    held. *)
Definition decodes_without_permit : Prop :=
  forall (i : nat) (q : string) (ch : QueryResultsChan),
    Forall (fun h => h = 0)
      (holding_at (fun ev => decode_op ev || parse_op ev) 0
         (events i (worker q ch))).

(** A response whose status is not 2xx makes [query] return an error, and
    its body is not decoded. *)
Definition non_2xx_is_transport_error : Prop :=
  forall (i : nat) (q : string) (req : Request) (rsp : Response),
    query_request q = inl req ->
    resp (Client_Do i req) = Some rsp ->
    StatusCode rsp < 200 \/ 300 <= StatusCode rsp ->
    promErr_of i q <> None /\
    holding_at decode_op 0 (events i (query q)) = [].

(** The worker of every query sends exactly one request, a POST with no
    body. *)
Definition issues_exactly_one_POST : Prop :=
  forall (i : nat) (q : string) (ch : QueryResultsChan),
    exists req : Request,
      issues (events i (worker q ch)) = [req] /\
      Method req = MethodPost /\ Body req = None.

(* --------------------------------------------------------------------- *)
(** *** The gate discipline of a piece of code

    [gated h p h']: run by a goroutine that holds a permit iff [h], the code
    [p] acquires only while it holds none, returns only the permit it holds,
    is inside [Client.Do] only while it holds one, and ends holding one iff
    [h']. *)
Inductive gated {A} : bool -> prog A -> bool -> Prop :=
| gated_Ret h a : gated h (Ret a) h
| gated_Acquire k h' : gated true k h' -> gated false (SemAcquire k) h'
| gated_Return k h' : gated false k h' -> gated true (SemReturn k) h'
| gated_Do req k h' :
    (forall r, gated true (k r) h') -> gated true (ClientDo req k) h'
| gated_Infof h v msg k h' : gated h k h' -> gated h (KlogInfof v msg k) h'
| gated_Unmarshal h data k h' :
    (forall r, gated h (k r) h') -> gated h (JsonUnmarshal data k) h'
| gated_Report h e k h' : gated h k h' -> gated h (ECReport e k) h'
| gated_Parse h raw k h' :
    (forall r, gated h (k r) h') -> gated h (CallNewQueryResults raw k) h'
| gated_Send h ch v k h' : gated h k h' -> gated h (ChanSend ch v k) h'
| gated_Close h ch k h' : gated h k h' -> gated h (ChanClose ch k) h'.

(** The goroutine [g] holds a permit iff [h], and its remaining code keeps
    the discipline. *)
Definition holds (g : goroutine) (h : bool) : Prop :=
  match g with
  | Ready p => gated h p false
  | InFlight _ k => h = true /\ forall r, gated true (k r) false
  end.

Fixpoint permits_held (hs : list bool) : Z :=
  match hs with
  | [] => 0
  | h :: hs' => (if h then 1 else 0) + permits_held hs'
  end.

Definition gate_inv (N : Z) (w : World) : Prop :=
  exists hs : list bool,
    Forall2 holds (goroutines w) hs /\
    held (semaphore (ctx w)) = permits_held hs /\
    capacity (semaphore (ctx w)) = N /\
    held (semaphore (ctx w)) <= N.

(** The state of a program that started with [e0] collected errors and in
    which [Query] has been called for the queries [qs], in this order. *)
Definition batch_inv (e0 : nat) (qs : list string) (w : World) : Prop :=
  length (goroutines w) = length qs /\
  length (chans w) = length qs /\
  (forall j q, qs !! j = Some q ->
     exists g c, goroutines w !! j = Some g /\ chans w !! j = Some c /\
                 chan_ok j q g c) /\
  (length (collector (ctx w)) + isum pending 0 (goroutines w) =
   e0 + isum (fun j q => entries (outcome_of j q)) 0 qs)%nat.

(** The errors the worker of the query [q], run by goroutine [j], reports. *)
Definition errors_of (j : nat) (q : string) : list error :=
  reports [EvReport (promErr_of j q); EvReport (parseErr_of j q)].

(** Every error of a query is in the collector or still to be reported by
    its goroutine. *)
Definition funnel_inv (qs : list string) (w : World) : Prop :=
  length (goroutines w) = length qs /\
  forall j q g e,
    qs !! j = Some q -> goroutines w !! j = Some g ->
    In e (errors_of j q) ->
    In e (collector (ctx w)) \/ In e (reports (trace j g)).

(* --------------------------------------------------------------------- *)
(** *** Vocabulary of the further statements *)

(** The lines a sequence of operations writes to the log. *)
Fixpoint logged (tr : list event) : list (Z * string) :=
  match tr with
  | [] => []
  | EvInfof v msg :: tr' => (v, msg) :: logged tr'
  | _ :: tr' => logged tr'
  end.

(** The line [query] logs for the warning [w] of the query [q]. *)
Definition warning_line (q w : string) : Z * string :=
  (3, "Warning '" +:+ w +:+ "' fetching query '" +:+ q +:+ "'").

(** The lines the worker of the query [q], run by goroutine [j], logs. *)
Definition lines_of (j : nat) (q : string) : list (Z * string) :=
  match query_request q with
  | inl req => map (warning_line q) (warnings (Client_Do j req))
  | inr _ => []
  end.

(** The goroutine waits for the receiver of its channel. *)
Definition at_send (g : goroutine) : bool :=
  match g with Ready (ChanSend _ _ _) => true | _ => false end.

(** The number of operations the goroutines have still to perform. *)
Definition remaining_ops (w : World) : nat :=
  isum (fun j g => length (trace j g)) 0 (goroutines w).

(** The lists given by the elements of a list and their positions, the first
    one being at [n], one after the other. *)
Fixpoint icat {A X} (f : nat -> A -> list X) (n : nat) (l : list A) : list X :=
  match l with
  | [] => []
  | x :: l' => f n x ++ icat f (S n) l'
  end.

(** A list [L] of the shared state, to which an operation [ev] appends
    [pi ev], holds with what the goroutines have still to append what the
    workers of the queries [qs] append in all, [total j q] for the query [q]
    run by goroutine [j], after the [L0] of the start, in some order. *)
Definition shared_inv {X : Type} (pi : event -> list X)
  (L : World -> list X) (total : nat -> string -> list X)
  (L0 : list X) (qs : list string) (w : World) : Prop :=
  length (goroutines w) = length qs /\
  L w ++ icat (fun j g => flat_map pi (trace j g)) 0 (goroutines w)
  ≡ₚ L0 ++ icat total 0 qs.

(** The channels of a batch once every worker is done. *)
Definition drained (qs : list string) : list Chan :=
  imap (fun j q => mkChan [results_of j q] false) qs.

End Prom.

Arguments query : simpl never.
Arguments worker : simpl never.

Create HintDb gate.

(* ===================================================================== *)
(** ** Sample collaborators

    Concrete clients, backends and library functions on which the
    definitions above run. *)

Module Sample.

(** A URL printer and a parser for strings [scheme://host/path?query].  As
    in net/url, the printer escapes a space of the host as [%20], and the
    parser refuses a host with an escape in it. *)
Fixpoint escape_host (s : string) : string :=
  match s with
  | EmptyString => EmptyString
  | String c s' =>
      if Ascii.eqb c " " then "%20" +:+ escape_host s'
      else String c (escape_host s')
  end.

Definition String_ (u : URL) : string :=
  Scheme u +:+ "://" +:+ escape_host (Host u) +:+ Path u +:+ "?"
  +:+ RawQuery u.

Definition after (n : nat) (s : string) : string :=
  substring n (String.length s - n) s.

Definition Parse (s : string) : URL + error :=
  match index 0 "://" s with
  | None => inr (errorString "missing protocol scheme")
  | Some n =>
      let scheme := substring 0 n s in
      let rest := after (n + 3) s in
      let '(hostpath, rawquery) :=
        match index 0 "?" rest with
        | Some m => (substring 0 m rest, after (m + 1) rest)
        | None => (rest, EmptyString)
        end in
      let '(host, path) :=
        match index 0 "/" hostpath with
        | Some m => (substring 0 m hostpath, after m hostpath)
        | None => (hostpath, EmptyString)
        end in
      if existsb (Ascii.eqb "%") (list_ascii_of_string host) then
        inr (errorString "invalid URL escape")
      else inl (mkURL scheme host path rawquery)
  end.

(** The bytes of a success body and of an error body of the backend. *)
Definition success_body : list byte :=
  [x7b; x22; x73; x74; x61; x74; x75; x73; x22; x3a; x22; x73; x75; x63;
   x63; x65; x73; x73; x22; x2c; x22; x64; x61; x74; x61; x22; x3a; x7b;
   x7d; x7d].

Definition error_body : list byte :=
  [x7b; x22; x73; x74; x61; x74; x75; x73; x22; x3a; x22; x65; x72; x72;
   x6f; x72; x22; x2c; x22; x65; x72; x72; x6f; x72; x54; x79; x70; x65;
   x22; x3a; x22; x69; x6e; x74; x65; x72; x6e; x61; x6c; x22; x7d].

Definition same_bytes (a b : list byte) : bool :=
  bool_decide (Byte.to_N <$> a = Byte.to_N <$> b).

(** A decoder that knows these two bodies and the body [{}]. *)
Definition Unmarshal (data : list byte) : json + error :=
  if same_bytes data success_body then
    inl (JObject [("status"%string, JString "success");
                  ("data"%string, JObject [])])
  else if same_bytes data error_body then
    inl (JObject [("status"%string, JString "error");
                  ("errorType"%string, JString "internal")])
  else if same_bytes data [x7b; x7d] then inl (JObject [])
  else inr (errorString "invalid character looking for beginning of value").

Definition externals (host : string) (backend : nat -> Request -> DoResult)
  : Externals :=
  {| Client_URL := fun ep _ => mkURL "http" host ep EmptyString;
     Client_Do := backend;
     url_ParseQuery := fun _ => ∅;
     url_String := String_;
     url_Parse := Parse;
     json_Unmarshal := Unmarshal;
     strconv_Quote := fun s => s;
     statusKey := "status";
     payloadKey := "data" |}.

(** Backends: one that answers 200 with the success body and a warning, one
    that answers 500 with a transport error, one that answers 500 with an
    error body and no transport error, one whose body is no JSON, and one that
    answers [{}]. *)
Definition answers_ok (_ : nat) (_ : Request) : DoResult :=
  mkDoResult (Some (mkResponse 200)) success_body ["slow query"%string] None.

Definition answers_500_err (_ : nat) (_ : Request) : DoResult :=
  mkDoResult (Some (mkResponse 500)) []  []
    (Some (errorString "server returned HTTP status 500")).

Definition answers_500 (_ : nat) (_ : Request) : DoResult :=
  mkDoResult (Some (mkResponse 500)) error_body [] None.

Definition answers_garbage (_ : nat) (_ : Request) : DoResult :=
  mkDoResult (Some (mkResponse 200)) [x3c; x68; x31; x3e] [] None.

Definition answers_empty_object (_ : nat) (_ : Request) : DoResult :=
  mkDoResult (Some (mkResponse 200)) [x7b; x7d] [] None.

Definition host : string := "prometheus:9090".

Definition ok : Externals := externals host answers_ok.
Definition down : Externals := externals host answers_500_err.
Definition status500 : Externals := externals host answers_500.
Definition bad_host : Externals := externals "prom server:9090" answers_ok.

(** A context with a gate of capacity [N]. *)
Definition context (N : Z) : Context := mkContext [] (NewSemaphore N).

(** The schedule in which the goroutines [0] to [n-1] run one after the
    other, each taking [k] steps. *)
Definition one_by_one (n k : nat) : list action :=
  flat_map (fun i => replicate k (Step i)) (seq 0 n).

Definition three_queries : list string := ["up"; "rate(x[5m])"; "sum(y)"].
Definition two_queries : list string := ["q1"; "q2"].

(** The request of [query] for the query texts [up] and [q1]. *)
Definition up_request : Request :=
  mkRequest "POST" (mkURL "http" host "/api/v1/query" "query=up") None.

Definition q1_request : Request :=
  mkRequest "POST" (mkURL "http" host "/api/v1/query" "query=q1") None.

(** Two queries on a gate of capacity 1, on a backend that answers: the
    state in which the first goroutine has sent its request and the second
    has not started, and the state in which both have run to their end. *)
Definition one_in_flight : World :=
  default (start (context 1))
    (@run ok [Step 0; Step 0]
       (snd (@QueryAll ok two_queries (start (context 1))))).

Definition both_answered : World :=
  default (start (context 1))
    (@run ok (one_by_one 2 10)
       (snd (@QueryAll ok two_queries (start (context 1))))).

(** The same two queries, run to their end on a backend that fails with
    status 500. *)
Definition both_failed : World :=
  default (start (context 1))
    (@run down (one_by_one 2 8)
       (snd (@QueryAll down two_queries (start (context 1))))).

(** The same on a backend that fails, each worker stopped before its send;
    and the first state again with a gate of capacity 2. *)
Definition both_at_send : World :=
  default (start (context 1))
    (@run down (one_by_one 2 7)
       (snd (@QueryAll down two_queries (start (context 1))))).

Definition one_in_flight_of_two : World :=
  default (start (context 2))
    (@run ok [Step 0; Step 0]
       (snd (@QueryAll ok two_queries (start (context 2))))).

End Sample.

(* ===================================================================== *)
(** ** Properties *)

Section Proofs.
Context `{Ext : Externals}.

Implicit Types (i : nat) (g : goroutine) (w : World) (tr : list event).

(** *** Sequencing *)

Lemma events_bind {A B} i (m : prog A) (f : A -> prog B) :
  events i (bind m f) = events i m ++ events i (f (result i m)).
Proof.
  induction m as [a|k IH|k IH|req k IH|v msg k IH|data k IH|e k IH|raw k IH
                 |ch v k IH|ch k IH]; simpl; rewrite ?IH; reflexivity.
Qed.

Lemma result_bind {A B} i (m : prog A) (f : A -> prog B) :
  result i (bind m f) = result i (f (result i m)).
Proof.
  induction m as [a|k IH|k IH|req k IH|v msg k IH|data k IH|e k IH|raw k IH
                 |ch v k IH|ch k IH]; simpl; rewrite ?IH; reflexivity.
Qed.

(** A step of a goroutine performs the first operation of its trace. *)
Lemma trace_advance i g ev g' :
  advance i g = Some (ev, g') -> trace i g = ev :: trace i g'.
Proof.
  destruct g as [p|req k]; simpl.
  - destruct p; simpl; intros [= <- <-]; reflexivity.
  - intros [= <- <-]; reflexivity.
Qed.

Lemma advance_None i g : advance i g = None <-> is_done g = true.
Proof.
  destruct g as [p|req k]; simpl; [destruct p|]; simpl; split; congruence.
Qed.

Lemma trace_nil i g : trace i g = [] <-> is_done g = true.
Proof.
  destruct g as [p|req k]; simpl; [destruct p|]; simpl; split; congruence.
Qed.

Lemma events_range i {A} (l : list A) (f : A -> string) :
  events i (range l (fun x => infof 3 (f x))) = map (fun x => EvInfof 3 (f x)) l.
Proof. induction l as [|x l IH]; simpl; [|rewrite IH]; reflexivity. Qed.

Lemma forallb_infof (P : event -> bool) {A} (f : A -> string) (l : list A) :
  (forall v msg, P (EvInfof v msg) = true) ->
  forallb P (map (fun x => EvInfof 3 (f x)) l) = true.
Proof.
  intros HP. induction l as [|x l IH]; simpl; [reflexivity|].
  rewrite HP, IH. reflexivity.
Qed.

Lemma result_range i {A} (l : list A) (f : A -> prog unit) :
  result i (range l f) = tt.
Proof. destruct (result i (range l f)); reflexivity. Qed.

(** *** The gate discipline of [query] and of a worker *)

Lemma gated_bind {A B} (m : prog A) (f : A -> prog B) h h' h'' :
  gated h m h' -> (forall a, gated h' (f a) h'') -> gated h (bind m f) h''.
Proof.
  intros Hm Hf. induction Hm; simpl; try (constructor; auto); auto.
Qed.

Lemma gated_range {A} (l : list A) (f : A -> prog unit) h :
  (forall x, gated h (f x) h) -> gated h (range l f) h.
Proof.
  intros Hf. induction l as [|x l IH]; simpl.
  - constructor.
  - eapply gated_bind; [apply Hf|]. intros _. exact IH.
Qed.

Local Hint Constructors gated : gate.

Lemma gated_query q : gated false (query q) false.
Proof.
  unfold query, acquire, release, defer, do, unmarshal, infof. simpl.
  constructor.
  destruct (http_NewRequest _ _ _) as [req|e]; simpl.
  - constructor. intros r.
    eapply gated_bind with (h' := true).
    + eapply gated_bind with (h' := true).
      * apply gated_range. intros; auto with gate.
      * intros _. destruct (err r) as [e|].
        -- destruct (resp r); auto with gate.
        -- simpl. constructor. intros [v|e]; auto with gate.
    + intros a. simpl. auto with gate.
  - auto with gate.
Qed.

Lemma gated_worker q ch : gated false (worker q ch) false.
Proof.
  unfold worker. eapply gated_bind; [apply gated_query|].
  intros [raw promErr]. unfold report, parse, send. simpl.
  constructor. constructor. intros [results parseErr]. simpl.
  auto with gate.
Qed.

(** *** The gate invariant of the running program *)

Lemma permits_held_nonneg hs : 0 <= permits_held hs.
Proof. induction hs as [|[] hs IH]; simpl; lia. Qed.

Lemma permits_held_app hs hs' :
  permits_held (hs ++ hs') = permits_held hs + permits_held hs'.
Proof. induction hs as [|[] hs IH]; simpl; lia. Qed.

Lemma permits_held_insert hs (i : nat) (h h' : bool) :
  hs !! i = Some h ->
  permits_held (<[i := h']> hs) =
  permits_held hs - (if h then 1 else 0) + (if h' then 1 else 0).
Proof.
  revert i. induction hs as [|x hs IH]; intros [|i]; simpl; try congruence.
  - intros [= ->]. lia.
  - intros H. rewrite (IH _ H). lia.
Qed.

Lemma inflight_le_permits gs hs :
  Forall2 holds gs hs ->
  Z.of_nat (length (filter (fun g => is_inflight g = true) gs)) <= permits_held hs.
Proof.
  induction 1 as [|g h gs hs Hg _ IH]; [simpl; lia|].
  rewrite filter_cons. destruct g as [p|req k]; simpl in *.
  - destruct h; lia.
  - destruct Hg as [-> _]. lia.
Qed.

Lemma gate_inv_start N ec : 0 <= N -> gate_inv N (start (mkContext ec (NewSemaphore N))).
Proof.
  intros HN. exists []. simpl. repeat split; auto; constructor.
Qed.

Lemma gate_inv_Query N q w : gate_inv N w -> gate_inv N (snd (Query q w)).
Proof.
  intros (hs & Hhs & Hheld & Hcap & Hle). exists (hs ++ [false]). simpl.
  repeat split; auto.
  - apply Forall2_app; [exact Hhs|].
    constructor; [apply gated_worker|constructor].
  - rewrite permits_held_app. simpl. lia.
Qed.

Lemma gate_inv_step N i w ev w' :
  gate_inv N w -> step i w = Some (ev, w') -> gate_inv N w'.
Proof.
  intros (hs & Hhs & Hheld & Hcap & Hle). unfold step.
  destruct (goroutines w !! i) as [g|] eqn:Hg; simpl; [|congruence].
  destruct (advance i g) as [[ev0 g']|] eqn:Hadv; simpl; [|congruence].
  destruct (perform ev0 w) as [w1|] eqn:Hper; simpl; [|congruence].
  intros [= <- <-].
  destruct (Forall2_lookup_l _ _ _ _ _ Hhs Hg) as (h & Hh & Hgh).
  assert (Hpos := permits_held_nonneg hs).
  (* every case gives the new holding flag of goroutine [i] *)
  assert (exists h',
    holds g' h' /\ goroutines w1 = goroutines w /\
    capacity (semaphore (ctx w1)) = capacity (semaphore (ctx w)) /\
    held (semaphore (ctx w1)) =
      held (semaphore (ctx w)) - (if h then 1 else 0) + (if h' then 1 else 0) /\
    held (semaphore (ctx w1)) <= N) as (h' & Hg' & Hgs & Hcap' & Hheld' & Hle').
  { destruct g as [p|req k]; simpl in Hadv.
    - destruct p; simpl in Hadv; try discriminate;
        injection Hadv as <- <-; simpl in Hper, Hgh; inversion Hgh; subst;
        repeat match goal with
        | H : existT _ _ = existT _ _ |- _ => clear H
        end.
      + (* Acquire *)
        unfold Semaphore_Acquire in Hper.
        destruct (held (semaphore (ctx w)) <? capacity (semaphore (ctx w)))
          eqn:Hlt; simpl in Hper; [|discriminate].
        injection Hper as <-. apply Z.ltb_lt in Hlt.
        exists true. simpl. repeat split; auto; lia.
      + (* Return *)
        injection Hper as <-. exists false. simpl.
        repeat split; auto; lia.
      + (* Do *)
        injection Hper as <-. exists true. simpl. repeat split; auto; lia.
      + injection Hper as <-. exists h. simpl.
        repeat split; auto; destruct h; lia.
      + injection Hper as <-. exists h. simpl.
        repeat split; auto; destruct h; lia.
      + injection Hper as <-. exists h. simpl.
        repeat split; auto; destruct h; lia.
      + injection Hper as <-. exists h. simpl.
        repeat split; auto; destruct h; lia.
      + destruct (chans w !! ch) as [c|]; simpl in Hper; [|discriminate].
        destruct (closed c); [discriminate|]. injection Hper as <-.
        exists h. simpl. repeat split; auto; destruct h; lia.
      + destruct (chans w !! ch) as [c|]; simpl in Hper; [|discriminate].
        destruct (closed c); [discriminate|]. injection Hper as <-.
        exists h. simpl. repeat split; auto; destruct h; lia.
    - injection Hadv as <- <-. simpl in Hper. injection Hper as <-.
      destruct Hgh as [-> Hk]. exists true. simpl.
      repeat split; auto; lia. }
  exists (<[i := h']> hs). simpl. rewrite Hgs. repeat split.
  - apply Forall2_insert; assumption.
  - rewrite (permits_held_insert _ _ _ _ Hh). lia.
  - congruence.
  - exact Hle'.
Qed.

Lemma gate_inv_act N a w w' : gate_inv N w -> act a w = Some w' -> gate_inv N w'.
Proof.
  destruct a as [q|i]; simpl.
  - intros H [= <-]. apply gate_inv_Query, H.
  - intros H. destruct (step i w) as [[ev w1]|] eqn:Hs; simpl; [|discriminate].
    intros [= <-]. eapply gate_inv_step; eauto.
Qed.

Lemma gate_inv_run N sched w w' :
  gate_inv N w -> run sched w = Some w' -> gate_inv N w'.
Proof.
  revert w. induction sched as [|a sched IH]; simpl; intros w Hw.
  - intros [= <-]. exact Hw.
  - destruct (act a w) as [w1|] eqn:Ha; simpl; [|discriminate].
    apply IH. eapply gate_inv_act; eauto.
Qed.

Lemma gate_inv_bounds N w :
  gate_inv N w ->
  0 <= held (semaphore (ctx w)) <= N /\ Z.of_nat (inflight w) <= held (semaphore (ctx w)).
Proof.
  intros (hs & Hhs & Hheld & Hcap & Hle). split.
  - rewrite Hheld in *. split; [apply permits_held_nonneg|lia].
  - rewrite Hheld. apply inflight_le_permits, Hhs.
Qed.

(** *** [QueryAll] is the calls of [Query], in order *)

Lemma QueryAll_range_spec queries l w :
  QueryAll_range queries (Some l) w =
  (Some (l ++ seq (length (chans w)) (length queries)),
   mkWorld (ctx w)
     (goroutines w ++
      imap (fun j q => Ready (worker q (length (chans w) + j)%nat)) queries)
     (chans w ++ replicate (length queries) make_chan)
     (klog w)).
Proof.
  revert l w. induction queries as [|q queries IH]; intros l w; simpl.
  - rewrite !app_nil_r. destruct w; reflexivity.
  - unfold append. simpl. rewrite IH. simpl.
    rewrite length_app. simpl. rewrite Nat.add_1_r.
    rewrite <- !app_assoc. simpl. rewrite Nat.add_0_r.
    do 4 f_equal. apply imap_ext. intros j x _. simpl.
    rewrite Nat.add_succ_r. reflexivity.
Qed.

Lemma QueryAll_run queries w :
  run (map Call queries) w = Some (snd (QueryAll queries w)).
Proof.
  unfold QueryAll. generalize (Some [] : slice QueryResultsChan).
  revert w. induction queries as [|q queries IH]; intros w acc; simpl.
  - reflexivity.
  - apply IH.
Qed.

Lemma run_app sched sched' w :
  run (sched ++ sched') w = w' ← run sched w; run sched' w'.
Proof.
  revert w. induction sched as [|a sched IH]; intros w; simpl; [reflexivity|].
  destruct (act a w) as [w1|]; simpl; [apply IH|reflexivity].
Qed.

(** A schedule that follows a batch is a schedule that starts with the calls
    of [Query] of the batch. *)
Lemma run_after_QueryAll queries sched w :
  run sched (snd (QueryAll queries w)) = run (map Call queries ++ sched) w.
Proof. rewrite run_app, QueryAll_run. reflexivity. Qed.

Lemma calls_after_QueryAll queries sched :
  calls (map Call queries ++ sched) = queries ++ calls sched.
Proof.
  induction queries as [|q queries IH]; simpl; [reflexivity|].
  rewrite IH. reflexivity.
Qed.

(** *** The operations of [query] and of a worker *)

Lemma events_query i q :
  events i (query q) = EvAcquire :: query_inner i q ++ [EvReturn].
Proof.
  unfold query, query_inner, query_request, defer, acquire, release, do,
    unmarshal.
  cbn [bind events]. f_equal. rewrite events_bind.
  destruct (http_NewRequest _ _ _) as [req|e]; [|reflexivity].
  cbn [bind events result app]. do 2 f_equal.
  f_equal. rewrite events_bind, events_range. f_equal.
  destruct (err (Client_Do i req)) as [e|].
  - destruct (resp (Client_Do i req)); reflexivity.
  - cbn [events]. destruct (json_Unmarshal _); reflexivity.
Qed.

Lemma result_query i q :
  result i (query q) =
  match query_request q with
  | inr e => (JNull, Some e)
  | inl req =>
      let r := Client_Do i req in
      match err r, resp r with
      | Some e, None =>
          (JNull, Some (errorString ("Error " +:+ Error e
                                     +:+ " fetching query " +:+ q)))
      | Some e, Some rsp =>
          (JNull, Some (errorString (itoa (StatusCode rsp) +:+ " Error "
                                     +:+ Error e
                                     +:+ " fetching query " +:+ q)))
      | None, _ =>
          match json_Unmarshal (body r) with
          | inr e =>
              (JNull, Some (errorString ("Error " +:+ Error e
                                         +:+ " fetching query " +:+ q)))
          | inl v => (v, None)
          end
      end
  end.
Proof.
  unfold query, query_request, defer, acquire, release, do, unmarshal.
  cbn [bind result]. rewrite result_bind.
  destruct (http_NewRequest _ _ _) as [req|e]; [|reflexivity].
  cbn [bind result]. rewrite result_bind.
  destruct (err (Client_Do i req)) as [e|].
  - destruct (resp (Client_Do i req)); reflexivity.
  - cbn [result]. destruct (json_Unmarshal _); reflexivity.
Qed.

Lemma events_worker i q ch :
  events i (worker q ch) =
  events i (query q) ++
  [EvReport (promErr_of i q); EvParse (fst (query_result i q));
   EvReport (parseErr_of i q); EvSend ch (results_of i q)].
Proof.
  unfold worker, promErr_of, parseErr_of, results_of, query_result.
  rewrite events_bind. f_equal.
  destruct (result i (query q)) as [raw promErr]. cbn.
  destruct (NewQueryResults raw) as [results parseErr]. reflexivity.
Qed.

(** A failed [query] returns a nil value with its error, and the parser
    turns the nil value into a zero result with an error of its own. *)
Lemma query_error_nil i q :
  promErr_of i q <> None -> fst (query_result i q) = JNull.
Proof.
  unfold promErr_of, query_result. rewrite result_query.
  destruct (query_request q) as [req|e]; [|reflexivity]. simpl.
  destruct (err (Client_Do i req)) as [e|].
  - destruct (resp (Client_Do i req)); reflexivity.
  - destruct (json_Unmarshal _); [simpl; congruence|reflexivity].
Qed.

Lemma NewQueryResults_error raw :
  snd (NewQueryResults raw) <> None -> fst (NewQueryResults raw) = zeroResults.
Proof.
  unfold NewQueryResults. destruct raw; try reflexivity.
  destruct (assoc statusKey m) as [[]|]; try reflexivity.
  destruct (assoc payloadKey m); [simpl; congruence|reflexivity].
Qed.

Lemma outcome_FailedQuery i q :
  promErr_of i q <> None -> outcome_of i q = FailedQuery /\
  parseErr_of i q <> None /\ results_of i q = zeroResults.
Proof.
  intros H. pose proof (query_error_nil i q H) as Hnil.
  unfold outcome_of, parseErr_of, results_of. rewrite Hnil. simpl.
  destruct (promErr_of i q); [|congruence]. repeat split. congruence.
Qed.

(** *** Steps, one by one *)

Lemma step_inv i w ev w' :
  step i w = Some (ev, w') ->
  exists g g' w1,
    goroutines w !! i = Some g /\ advance i g = Some (ev, g') /\
    perform ev w = Some w1 /\
    w' = set_goroutines w1 (<[i := g']> (goroutines w1)).
Proof.
  unfold step.
  destruct (goroutines w !! i) as [g|]; simpl; [|congruence].
  destruct (advance i g) as [[ev0 g']|] eqn:Hadv; simpl; [|congruence].
  destruct (perform ev0 w) as [w1|] eqn:Hper; simpl; [|congruence].
  intros [= <- <-]. exists g, g', w1. auto.
Qed.

Lemma perform_frame ev w w1 :
  perform ev w = Some w1 ->
  goroutines w1 = goroutines w /\
  length (chans w1) = length (chans w) /\
  (quiet ev = true -> chans w1 = chans w) /\
  collector (ctx w1) = collector (ctx w) ++ reports [ev].
Proof.
  destruct ev; simpl.
  - destruct (Semaphore_Acquire _); simpl; [|congruence].
    intros [= <-]. simpl. rewrite app_nil_r. auto.
  - intros [= <-]. simpl. rewrite app_nil_r. auto.
  - intros [= <-]. rewrite app_nil_r. auto.
  - intros [= <-]. rewrite app_nil_r. auto.
  - intros [= <-]. simpl. rewrite app_nil_r. auto.
  - intros [= <-]. rewrite app_nil_r. auto.
  - intros [= <-]. simpl. destruct e; simpl; rewrite ?app_nil_r; auto.
  - intros [= <-]. rewrite app_nil_r. auto.
  - destruct (chans w !! ch) as [c|]; simpl; [|congruence].
    destruct (closed c); [congruence|]. intros [= <-]. simpl.
    rewrite length_insert, app_nil_r. repeat split; congruence.
  - destruct (chans w !! ch) as [c|]; simpl; [|congruence].
    destruct (closed c); [congruence|]. intros [= <-]. simpl.
    rewrite length_insert, app_nil_r. repeat split; congruence.
Qed.

Lemma reports_app tr tr' : reports (tr ++ tr') = reports tr ++ reports tr'.
Proof.
  induction tr as [|ev tr IH]; simpl; [reflexivity|].
  destruct ev; auto. destruct e; simpl; congruence.
Qed.

Lemma isum_app {A} (f : nat -> A -> nat) n (l l' : list A) :
  isum f n (l ++ l') = (isum f n l + isum f (n + length l) l')%nat.
Proof.
  revert n. induction l as [|x l IH]; intros n; simpl.
  - rewrite Nat.add_0_r. reflexivity.
  - rewrite IH, Nat.add_succ_r. simpl. lia.
Qed.

Lemma isum_insert {A} (f : nat -> A -> nat) n (l : list A) (i : nat) x y :
  l !! i = Some x ->
  (isum f n (<[i := y]> l) + f (n + i) x = isum f n l + f (n + i) y)%nat.
Proof.
  revert n i. induction l as [|z l IH]; intros n [|i]; simpl; try congruence.
  - intros [= ->]. rewrite Nat.add_0_r. lia.
  - intros H. specialize (IH (S n) i H). rewrite Nat.add_succ_r.
    simpl in IH. lia.
Qed.

Lemma quiet_query i q : forallb quiet (events i (query q)) = true.
Proof.
  rewrite events_query. simpl. rewrite forallb_app. simpl.
  rewrite andb_true_r. unfold query_inner.
  destruct (query_request q) as [req|e]; [|reflexivity]. simpl.
  rewrite forallb_app. apply andb_true_intro. split.
  - induction (warnings (Client_Do i req)); simpl; auto.
  - destruct (err (Client_Do i req)); reflexivity.
Qed.

Lemma reports_query i q : reports (events i (query q)) = [].
Proof.
  rewrite events_query. simpl. rewrite reports_app. simpl.
  rewrite app_nil_r. unfold query_inner.
  destruct (query_request q) as [req|e]; [|reflexivity]. simpl.
  rewrite reports_app.
  replace (reports (map _ (warnings (Client_Do i req)))) with (@nil error)
    by (induction (warnings (Client_Do i req)); simpl; auto).
  destruct (err (Client_Do i req)); reflexivity.
Qed.

Lemma last_send_worker i q ch :
  last_send ch (results_of i q) (events i (worker q ch)).
Proof.
  rewrite events_worker.
  exists (events i (query q) ++
          [EvReport (promErr_of i q); EvParse (fst (query_result i q));
           EvReport (parseErr_of i q)]).
  split.
  - rewrite <- app_assoc. reflexivity.
  - rewrite forallb_app, quiet_query. reflexivity.
Qed.

Lemma pending_worker i q ch :
  pending i (Ready (worker q ch)) = entries (outcome_of i q).
Proof.
  unfold pending, trace. rewrite events_worker, reports_app, reports_query.
  simpl. destruct (promErr_of i q) as [e|] eqn:He.
  - destruct (outcome_FailedQuery i q) as (-> & Hp & _); [congruence|].
    destruct (parseErr_of i q); [reflexivity|congruence].
  - unfold outcome_of. rewrite He. destruct (parseErr_of i q); reflexivity.
Qed.

Lemma batch_inv_start c : batch_inv (length (collector c)) [] (start c).
Proof.
  unfold batch_inv. simpl. repeat split; auto.
  intros j q H. rewrite lookup_nil in H. discriminate.
Qed.

Lemma batch_inv_Query e0 qs q w :
  batch_inv e0 qs w -> batch_inv e0 (qs ++ [q]) (snd (Query q w)).
Proof.
  intros (Hg & Hc & Hok & Hsum). unfold batch_inv. simpl.
  rewrite !length_app. simpl. repeat split; try lia.
  - intros j q' Hj. destruct (decide (j < length qs)%nat) as [Hlt|Hge].
    + rewrite lookup_app_l in Hj by exact Hlt.
      destruct (Hok j q' Hj) as (g & c & Hgj & Hcj & Hjok).
      exists g, c. repeat split; auto.
      * rewrite lookup_app_l; [exact Hgj|lia].
      * rewrite lookup_app_l; [exact Hcj|lia].
    + assert (j = length qs) as ->.
      { apply lookup_lt_Some in Hj. rewrite length_app in Hj. simpl in Hj. lia. }
      rewrite lookup_app_r in Hj by lia.
      rewrite Nat.sub_diag in Hj. injection Hj as <-.
      exists (Ready (worker q (length (chans w)))), make_chan.
      repeat split.
      * rewrite lookup_app_r by lia. rewrite Hg, Nat.sub_diag. reflexivity.
      * rewrite lookup_app_r by lia. rewrite Hc, Nat.sub_diag. reflexivity.
      * left. split; [reflexivity|]. rewrite Hc. simpl.
        apply last_send_worker.
  - rewrite !isum_app. simpl. rewrite Hg, pending_worker. lia.
Qed.

Lemma last_send_cons j v ev tr :
  last_send j v (ev :: tr) ->
  (quiet ev = true /\ last_send j v tr) \/ (ev = EvSend j v /\ tr = []).
Proof.
  intros ([|ev' pre] & Heq & Hq); simpl in *.
  - injection Heq as -> ->. right. auto.
  - injection Heq as <- ->. apply andb_prop in Hq as [Hev Hpre].
    left. split; [exact Hev|]. exists pre. auto.
Qed.

Lemma batch_inv_step e0 qs i w ev w' :
  batch_inv e0 qs w -> step i w = Some (ev, w') -> batch_inv e0 qs w'.
Proof.
  intros (Hg & Hc & Hok & Hsum) Hstep.
  destruct (step_inv _ _ _ _ Hstep) as (g & g' & w1 & Hgi & Hadv & Hper & ->).
  destruct (perform_frame _ _ _ Hper) as (Hgs & Hlen & Hquiet & Hcol).
  pose proof (trace_advance _ _ _ _ Hadv) as Htr.
  assert (i < length qs)%nat as Hi by (rewrite <- Hg; eapply lookup_lt_Some; eauto).
  destruct (lookup_lt_is_Some_2 qs i Hi) as [qi Hqi].
  destruct (Hok i qi Hqi) as (g0 & ci & Hg0 & Hci & Hiok).
  rewrite Hgi in Hg0. injection Hg0 as <-.
  unfold batch_inv. simpl. rewrite length_insert, Hgs, Hlen.
  split; [exact Hg|]. split; [exact Hc|]. split.
  - (* the channels *)
    destruct Hiok as [[-> Hlast]|[_ Hdone]].
    2:{ apply (proj2 (advance_None i g)) in Hdone. congruence. }
    rewrite Htr in Hlast.
    destruct (last_send_cons _ _ _ _ Hlast) as [[Hq Hlast']|[-> Hnil]].
    + (* a quiet step *)
      rewrite (Hquiet Hq). intros j q Hj.
      destruct (Hok j q Hj) as (gj & cj & Hgj & Hcj & Hjok).
      destruct (decide (j = i)) as [->|Hne].
      * exists g', cj. rewrite list_lookup_insert_eq by (eapply lookup_lt_Some; eauto).
        repeat split; auto.
        assert (q = qi) as -> by congruence.
        rewrite Hci in Hcj. injection Hcj as <-.
        left. auto.
      * exists gj, cj. rewrite list_lookup_insert_ne by congruence. auto.
    + (* the send *)
      simpl in Hper. rewrite Hci in Hper. simpl in Hper.
      injection Hper as <-. simpl. intros j q Hj.
      destruct (Hok j q Hj) as (gj & cj & Hgj & Hcj & Hjok).
      destruct (decide (j = i)) as [->|Hne].
      * assert (q = qi) as -> by congruence.
        exists g', (mkChan [results_of i qi] false).
        rewrite !list_lookup_insert_eq by (eapply lookup_lt_Some; eauto).
        repeat split; auto. right. split; [reflexivity|].
        apply (proj1 (trace_nil i g')). exact Hnil.
      * exists gj, cj. rewrite !list_lookup_insert_ne by congruence. auto.
  - (* the reports *)
    rewrite Hcol, length_app.
    pose proof (isum_insert pending 0 (goroutines w) i g g' Hgi) as Hins.
    simpl in Hins.
    assert (pending i g = length (reports [ev]) + pending i g')%nat as Hp.
    { unfold pending. rewrite Htr.
      change (ev :: trace i g') with ([ev] ++ trace i g').
      rewrite reports_app, length_app. reflexivity. }
    lia.
Qed.

Lemma batch_inv_run e0 qs sched w w' :
  batch_inv e0 qs w -> run sched w = Some w' ->
  batch_inv e0 (qs ++ calls sched) w'.
Proof.
  revert qs w. induction sched as [|a sched IH]; simpl; intros qs w Hw.
  - intros [= <-]. rewrite app_nil_r. exact Hw.
  - destruct (act a w) as [w1|] eqn:Ha; simpl; [|discriminate].
    destruct a as [q|i]; simpl in Ha.
    + injection Ha as <-. intros Hrun.
      replace (qs ++ q :: calls sched) with ((qs ++ [q]) ++ calls sched)
        by (rewrite <- app_assoc; reflexivity).
      eapply IH; [|exact Hrun]. apply batch_inv_Query, Hw.
    + destruct (step i w) as [[ev w2]|] eqn:Hs; simpl in Ha; [|discriminate].
      injection Ha as <-. apply IH. eapply batch_inv_step; eauto.
Qed.

(* ===================================================================== *)
(** ** The dispatcher: [QueryAll] and [Query] *)

Lemma QueryAll_world queries w :
  snd (QueryAll queries w) =
  mkWorld (ctx w)
    (goroutines w ++
     imap (fun j q => Ready (worker q (length (chans w) + j)%nat)) queries)
    (chans w ++ replicate (length queries) make_chan)
    (klog w).
Proof. unfold QueryAll. rewrite QueryAll_range_spec. reflexivity. Qed.

Lemma QueryAll_chans queries w :
  fst (QueryAll queries w) = Some (seq (length (chans w)) (length queries)).
Proof. unfold QueryAll. rewrite QueryAll_range_spec. reflexivity. Qed.

(** C1. For every sequence of queries, of any length K >= 0, [QueryAll]
    returns exactly K channels, and the i-th of them is the channel returned
    by the call [Query] on the i-th query, made in the state the first i
    calls have left: [QueryAll] on the first i+1 queries leaves the state of
    that call, and the goroutine started for the i-th query runs the worker
    of that query on that channel. *)
Theorem QueryAll_length_order (queries : list string) (w : World) :
  len (fst (QueryAll queries w)) = length queries /\
  forall (i : nat) (q : string),
    queries !! i = Some q ->
    let w_i := snd (QueryAll (take i queries) w) in
    elems (fst (QueryAll queries w)) !! i = Some (fst (Query q w_i)) /\
    snd (QueryAll (take (S i) queries) w) = snd (Query q w_i) /\
    goroutines (snd (QueryAll queries w)) !! (length (goroutines w) + i)%nat
    = Some (Ready (worker q (fst (Query q w_i)))).
Proof.
  split.
  - rewrite QueryAll_chans. unfold len. simpl. apply length_seq.
  - intros i q Hi w_i. subst w_i.
    pose proof (lookup_lt_Some _ _ _ Hi) as Hlt.
    assert (length (take i queries) = i) as Hlen
      by (rewrite length_take; lia).
    assert (fst (Query q (snd (QueryAll (take i queries) w)))
            = (length (chans w) + i)%nat) as Hch.
    { rewrite QueryAll_world. simpl.
      rewrite length_app, length_replicate, Hlen. reflexivity. }
    rewrite Hch. repeat split.
    + rewrite QueryAll_chans. simpl. apply lookup_seq. split; [reflexivity|lia].
    + rewrite (take_S_r _ _ _ Hi), !QueryAll_world.
      unfold Query, set_goroutines, set_chans. simpl. f_equal.
      * rewrite imap_app, Hlen, <- app_assoc. simpl.
        rewrite length_app, length_replicate, Nat.add_0_r.
        reflexivity.
      * rewrite length_app, Hlen, <- app_assoc. simpl.
        rewrite replicate_add. reflexivity.
    + rewrite QueryAll_world. simpl.
      rewrite lookup_app_r by lia.
      replace (length (goroutines w) + i - length (goroutines w))%nat with i
        by lia.
      rewrite list_lookup_imap, Hi. reflexivity.
Qed.

(** C10. [QueryAll] with no query returns a non-nil slice of length 0 and
    leaves the program as it is: no goroutine is started, no request is sent
    to the backend, and the context (error collector and semaphore) is the
    same. *)
Theorem QueryAll_no_queries (w : World) :
  QueryAll [] w = (Some [], w) /\
  len (fst (QueryAll [] w)) = 0%nat /\
  goroutines (snd (QueryAll [] w)) = goroutines w /\
  inflight (snd (QueryAll [] w)) = inflight w /\
  collector (ctx (snd (QueryAll [] w))) = collector (ctx w) /\
  semaphore (ctx (snd (QueryAll [] w))) = semaphore (ctx w).
Proof. repeat split. Qed.

(* ===================================================================== *)
(** ** The admission gate *)

Lemma gate_free_query_inner i q :
  forallb (fun ev => negb (gate_op ev)) (query_inner i q) = true.
Proof.
  unfold query_inner. destruct (query_request q) as [req|e]; [|reflexivity].
  simpl. rewrite forallb_app. apply andb_true_intro. split.
  - induction (warnings (Client_Do i req)); simpl; auto.
  - destruct (err (Client_Do i req)); reflexivity.
Qed.

(** C3. The capacity of the gate is fixed when the context is made, to 20
    by [NewContext]; with a gate of capacity N, whatever the size K of the
    batch given to [QueryAll] (K >= N included) and however the goroutines
    are scheduled afterwards (further calls of [Query] included), the number
    of requests sent to the backend and not yet answered never exceeds N. *)
Theorem inflight_never_exceeds_capacity :
  capacity (semaphore NewContext) = 20 /\
  forall (N : Z) (ec : ErrorCollector) (queries : list string)
         (sched : list action) (w : World),
    0 <= N ->
    run sched (snd (QueryAll queries (start (mkContext ec (NewSemaphore N)))))
    = Some w ->
    capacity (semaphore (ctx w)) = N /\ Z.of_nat (inflight w) <= N.
Proof.
  split; [reflexivity|]. intros N ec queries sched0 w HN Hrun.
  rewrite run_after_QueryAll in Hrun.
  set (sched := map Call queries ++ sched0) in *.
  pose proof (gate_inv_run N sched _ _ (gate_inv_start N ec HN) Hrun) as Hinv.
  destruct (gate_inv_bounds N w Hinv) as [Hheld Hin].
  destruct Hinv as (hs & _ & _ & Hcap & _). split; [exact Hcap|lia].
Qed.

(** C5. On every path of [query] (the request cannot be built, the
    transport fails, the body does not decode, or all succeeds: the cases of
    [query_inner]) the goroutine takes a permit first, gives it back exactly
    once, as its last operation before [query] returns, and does nothing to
    the semaphore in between; and in every state of a program that has
    submitted a batch, however it is scheduled, the number of held permits
    is within [0, N]. *)
Theorem query_returns_its_permit :
  (forall (i : nat) (q : string),
     events i (query q) = EvAcquire :: query_inner i q ++ [EvReturn] /\
     forallb (fun ev => negb (gate_op ev)) (query_inner i q) = true) /\
  (forall (N : Z) (ec : ErrorCollector) (queries : list string)
          (sched : list action) (w : World),
     0 <= N ->
     run sched (snd (QueryAll queries (start (mkContext ec (NewSemaphore N)))))
     = Some w ->
     0 <= held (semaphore (ctx w)) <= N).
Proof.
  split.
  - intros i q. split; [apply events_query|apply gate_free_query_inner].
  - intros N ec queries sched0 w HN Hrun.
    rewrite run_after_QueryAll in Hrun.
    set (sched := map Call queries ++ sched0) in *.
    pose proof (gate_inv_run N sched _ _ (gate_inv_start N ec HN) Hrun) as Hinv.
    apply (gate_inv_bounds N w Hinv).
Qed.

(* ===================================================================== *)
(** ** When the permit is held *)

Lemma holding_at_app P h tr tr' :
  holding_at P h (tr ++ tr') =
  holding_at P h tr ++ holding_at P (h + permits tr) tr'.
Proof.
  revert h. induction tr as [|ev tr IH]; intros h; simpl.
  - rewrite Z.add_0_r. reflexivity.
  - destruct ev; simpl; rewrite IH;
      try replace (h + 1 + permits tr) with (h + (permits tr + 1)) by lia;
      try replace (h - 1 + permits tr) with (h + (permits tr - 1)) by lia;
      destruct (P _); reflexivity.
Qed.

Lemma holding_at_gate_free P h tr :
  forallb (fun ev => negb (gate_op ev)) tr = true ->
  permits tr = 0 /\ Forall (fun x => x = h) (holding_at P h tr).
Proof.
  induction tr as [|ev tr IH]; simpl; [auto|].
  intros H. apply andb_prop in H as [Hev Htr].
  destruct (IH Htr) as [Hp Hall].
  destruct ev; simpl in *; try discriminate; (split; [exact Hp|]);
    destruct (P _); auto.
Qed.

Lemma holding_at_none P h tr :
  forallb (fun ev => negb (P ev)) tr = true -> holding_at P h tr = [].
Proof.
  revert h. induction tr as [|ev tr IH]; intros h; simpl; [reflexivity|].
  intros H. apply andb_prop in H as [Hev Htr].
  destruct (P ev); [discriminate|]. apply IH, Htr.
Qed.

Lemma events_worker_shape i q ch :
  events i (worker q ch) =
  [EvAcquire] ++ query_inner i q ++
  [EvReturn; EvReport (promErr_of i q); EvParse (fst (query_result i q));
   EvReport (parseErr_of i q); EvSend ch (results_of i q)].
Proof.
  rewrite events_worker, events_query. simpl. rewrite <- app_assoc.
  reflexivity.
Qed.

(** C4, as amended. In every worker the permit is given back exactly once
    and unconditionally, by the deferred [Return] that runs when [query]
    returns: after the network call, and after the decode of the body when
    the transport succeeded.  The request, the response and the decode are
    performed while the permit is held; the parse, the reports and the send
    are performed with no permit held. *)
Theorem permit_returned_after_decode (i : nat) (q : string)
  (ch : QueryResultsChan) :
  events i (worker q ch) =
    EvAcquire :: query_inner i q ++
    [EvReturn; EvReport (promErr_of i q); EvParse (fst (query_result i q));
     EvReport (parseErr_of i q); EvSend ch (results_of i q)] /\
  Forall (fun h => h = 1)
    (holding_at (fun ev => network_op ev || decode_op ev) 0
       (events i (worker q ch))) /\
  holding_at (fun ev => parse_op ev || report_op ev || send_op ev) 0
    (events i (worker q ch)) = [0; 0; 0; 0] /\
  (forall req : Request,
     query_request q = inl req -> err (Client_Do i req) = None ->
     holding_at decode_op 0 (events i (worker q ch)) = [1]).
Proof.
  pose proof (gate_free_query_inner i q) as Hfree.
  split; [apply events_worker_shape|]. rewrite events_worker_shape.
  split; [|split].
  - rewrite !holding_at_app. simpl.
    destruct (holding_at_gate_free (fun ev => network_op ev || decode_op ev)
                1 _ Hfree) as [_ Hall].
    rewrite app_nil_r. exact Hall.
  - rewrite !holding_at_app. simpl.
    destruct (holding_at_gate_free
                (fun ev => parse_op ev || report_op ev || send_op ev)
                1 _ Hfree) as [-> _].
    rewrite holding_at_none; [reflexivity|].
    unfold query_inner. destruct (query_request q) as [req|e]; [|reflexivity].
    simpl. rewrite forallb_app. apply andb_true_intro. split.
    + induction (warnings (Client_Do i req)); simpl; auto.
    + destruct (err (Client_Do i req)); reflexivity.
  - intros req Hreq Herr. rewrite !holding_at_app. simpl.
    rewrite app_nil_r. unfold query_inner. rewrite Hreq, Herr. simpl.
    rewrite holding_at_app. simpl.
    rewrite holding_at_none by (apply forallb_infof; reflexivity).
    destruct (holding_at_gate_free decode_op 1
                (map (fun x => EvInfof 3 ("Warning '" +:+ x
                                          +:+ "' fetching query '"
                                          +:+ q +:+ "'"))
                   (warnings (Client_Do i req)))) as [-> _];
      [apply forallb_infof|]; reflexivity.
Qed.

(* ===================================================================== *)
(** ** The result channel *)

Lemma sends_app ch tr tr' : sends ch (tr ++ tr') = sends ch tr ++ sends ch tr'.
Proof.
  induction tr as [|ev tr IH]; simpl; [reflexivity|].
  destruct ev; auto. destruct (Nat.eqb ch0 ch); simpl; congruence.
Qed.

Lemma sends_quiet ch tr : forallb quiet tr = true -> sends ch tr = [].
Proof.
  induction tr as [|ev tr IH]; simpl; [reflexivity|].
  intros H. apply andb_prop in H as [Hev Htr].
  destruct ev; simpl in *; try discriminate; auto.
Qed.

Lemma no_close_quiet tr :
  forallb quiet tr = true ->
  forallb (fun ev => negb (close_op ev)) tr = true.
Proof.
  induction tr as [|ev tr IH]; simpl; [reflexivity|].
  intros H. apply andb_prop in H as [Hev Htr]. rewrite (IH Htr).
  destruct ev; simpl in *; try discriminate; reflexivity.
Qed.

Lemma last_send_sends ch v tr :
  last_send ch v tr ->
  sends ch tr = [v] /\ forallb (fun ev => negb (close_op ev)) tr = true.
Proof.
  intros (pre & -> & Hq). split.
  - rewrite sends_app, (sends_quiet _ _ Hq). simpl.
    rewrite Nat.eqb_refl. reflexivity.
  - rewrite forallb_app, (no_close_quiet _ Hq). reflexivity.
Qed.

(** C2, as amended. For every query, succeeded or failed at any stage, the
    worker sends exactly one value on its channel, the result of its query, as
    its last operation, and then ends; it never closes the channel, which is
    left to the receiver.  In every state of the program the channel of a
    query is open, and has delivered nothing while its worker is not done and
    exactly that one value once it is. *)
Theorem worker_sends_once_and_never_closes :
  (forall (i : nat) (q : string) (ch : QueryResultsChan),
     (exists pre : list event,
        events i (worker q ch) = pre ++ [EvSend ch (results_of i q)] /\
        forallb quiet pre = true) /\
     sends ch (events i (worker q ch)) = [results_of i q] /\
     forallb (fun ev => negb (close_op ev)) (events i (worker q ch)) = true) /\
  (forall (c : Context) (queries : list string) (sched : list action)
          (w : World),
     run sched (snd (QueryAll queries (start c))) = Some w ->
     forall (j : nat) (q : string),
       (queries ++ calls sched) !! j = Some q ->
       exists (g : goroutine) (ch : Chan),
         goroutines w !! j = Some g /\ chans w !! j = Some ch /\
         closed ch = false /\
         received ch = if is_done g then [results_of j q] else []).
Proof.
  split.
  - intros i q ch. pose proof (last_send_worker i q ch) as Hlast.
    split; [exact Hlast|]. apply last_send_sends, Hlast.
  - intros c queries sched w Hrun j q Hj.
    rewrite run_after_QueryAll in Hrun.
    pose proof (batch_inv_run _ [] _ _ _ (batch_inv_start c) Hrun)
      as (_ & _ & Hok & _).
    rewrite calls_after_QueryAll in Hok.
    destruct (Hok j q Hj) as (g & ch & Hg & Hch & Hjok).
    exists g, ch. split; [exact Hg|]. split; [exact Hch|].
    destruct Hjok as [[-> (pre & Hpre & _)]|[-> ->]]; [|auto].
    split; [reflexivity|]. simpl.
    destruct (is_done g) eqn:Hd; [|reflexivity].
    apply (proj2 (trace_nil j g)) in Hd. rewrite Hd in Hpre.
    destruct pre; discriminate.
Qed.

(* ===================================================================== *)
(** ** The request and the response *)

(** C8, as amended. Whether a response is a transport error is decided by
    the error [Client.Do] returns, not by the status code: with a non-nil
    error [query] returns an error (whose text carries the status code when
    there is a response) and the body is not decoded; with a nil error the
    body is decoded whatever the status code, and [query] returns what the
    decoder gives. *)
Theorem transport_error_is_the_error_of_Do (i : nat) (q : string)
  (req : Request) :
  query_request q = inl req ->
  match err (Client_Do i req) with
  | Some e =>
      query_result i q =
        (JNull,
         Some (errorString
                 match resp (Client_Do i req) with
                 | Some rsp =>
                     itoa (StatusCode rsp) +:+ " Error " +:+ Error e
                     +:+ " fetching query " +:+ q
                 | None => "Error " +:+ Error e +:+ " fetching query " +:+ q
                 end)) /\
      holding_at decode_op 0 (events i (query q)) = []
  | None =>
      query_result i q =
        match json_Unmarshal (body (Client_Do i req)) with
        | inl v => (v, None)
        | inr e =>
            (JNull, Some (errorString ("Error " +:+ Error e
                                       +:+ " fetching query " +:+ q)))
        end /\
      holding_at decode_op 0 (events i (query q)) = [1]
  end.
Proof.
  intros Hreq. unfold query_result.
  rewrite result_query, events_query, Hreq. unfold query_inner.
  rewrite Hreq. simpl.
  destruct (err (Client_Do i req)) as [e|].
  - split.
    + destruct (resp (Client_Do i req)); reflexivity.
    + rewrite app_nil_r. apply holding_at_none. rewrite forallb_app.
      rewrite forallb_infof; reflexivity.
  - split; [destruct (json_Unmarshal _); reflexivity|].
    rewrite <- app_assoc, holding_at_app.
    rewrite holding_at_none by (apply forallb_infof; reflexivity).
    destruct (holding_at_gate_free decode_op 1
                (map (fun x => EvInfof 3 ("Warning '" +:+ x
                                          +:+ "' fetching query '"
                                          +:+ q +:+ "'"))
                   (warnings (Client_Do i req)))) as [-> _];
      [apply forallb_infof|]; reflexivity.
Qed.

Lemma issues_app tr tr' : issues (tr ++ tr') = issues tr ++ issues tr'.
Proof.
  induction tr as [|ev tr IH]; simpl; [reflexivity|].
  destruct ev; simpl; congruence.
Qed.

Lemma issues_infof {A} (f : A -> string) (l : list A) :
  issues (map (fun x => EvInfof 3 (f x)) l) = [].
Proof. induction l; simpl; auto. Qed.

Lemma query_segment (v : Values) (q : string) :
  In ("query=" +:+ QueryEscape q) (Values_segments (Values_Set v "query" q)).
Proof.
  unfold Values_segments, Values_Set. apply in_flat_map.
  exists "query"%string. split.
  - eapply Permutation_in.
    + symmetry. apply merge_sort_Permutation.
    + change "query"%string with (fst ("query"%string, [q])).
      apply in_map. apply list_elem_of_In, elem_of_map_to_list.
      apply lookup_insert_eq.
  - rewrite lookup_insert_eq. simpl. left. reflexivity.
Qed.

Lemma Encode_only_query (q : string) :
  Values_Encode (Values_Set ∅ "query" q) = "query=" +:+ QueryEscape q.
Proof.
  unfold Values_Encode, Values_segments, Values_Set.
  rewrite insert_empty, map_to_list_singleton. simpl.
  rewrite lookup_singleton_eq. reflexivity.
Qed.

(** C9, as amended. For every query text the worker builds one request:
    a POST with no body, to the URL the client gives for the fixed path
    [/api/v1/query] with its query string replaced by the encoding of its
    parameters in which [query] is set to the query text, so that
    [query=<escaped text>] is one of the [&]-separated pieces, and the only
    one when the client's URL has no parameters.  When [http.NewRequest]
    accepts it, the worker sends this request and no other; when it does not,
    the worker sends no request and [query] returns the error. *)
Theorem one_POST_unless_request_fails (i : nat) (q : string)
  (ch : QueryResultsChan) :
  epQuery = "/api/v1/query"%string /\
  (let u := Client_URL epQuery None in
   let values := Values_Set (URL_Query u) "query" q in
   query_request q =
     http_NewRequest MethodPost
       (url_String (set_RawQuery u (Values_Encode values))) None /\
   values !! "query"%string = Some [q] /\
   In ("query=" +:+ QueryEscape q) (Values_segments values) /\
   (URL_Query u = ∅ -> Values_Encode values = "query=" +:+ QueryEscape q)) /\
  match query_request q with
  | inl req =>
      issues (events i (worker q ch)) = [req] /\
      Method req = "POST"%string /\ Body req = None /\
      url_Parse (url_String
                   (set_RawQuery (Client_URL epQuery None)
                      (Values_Encode
                         (Values_Set (URL_Query (Client_URL epQuery None))
                            "query" q))))
      = inl (ReqURL req)
  | inr e =>
      issues (events i (worker q ch)) = [] /\
      query_result i q = (JNull, Some e)
  end.
Proof.
  split; [reflexivity|]. split.
  - cbv zeta. split; [reflexivity|]. split; [apply lookup_insert_eq|].
    split; [apply query_segment|]. intros ->. apply Encode_only_query.
  - rewrite events_worker_shape, !issues_app. unfold query_result.
    rewrite result_query. unfold query_inner.
    destruct (query_request q) as [req|e] eqn:Hreq; [|auto].
    simpl. rewrite issues_app, issues_infof. simpl.
    split; [destruct (err (Client_Do i req)); reflexivity|].
    unfold query_request, http_NewRequest in Hreq. simpl in Hreq.
    destruct (url_Parse _) as [u|e]; [|discriminate].
    injection Hreq as <-. auto.
Qed.

(* ===================================================================== *)
(** ** Errors and siblings *)

Lemma reports_worker i q ch :
  reports (events i (worker q ch)) = errors_of i q.
Proof.
  rewrite events_worker, reports_app, reports_query. unfold errors_of.
  simpl. destruct (promErr_of i q); destruct (parseErr_of i q); reflexivity.
Qed.

Lemma funnel_inv_start c : funnel_inv [] (start c).
Proof.
  split; [reflexivity|]. intros j q g e H. rewrite lookup_nil in H.
  discriminate.
Qed.

Lemma funnel_inv_Query qs q w :
  funnel_inv qs w -> funnel_inv (qs ++ [q]) (snd (Query q w)).
Proof.
  intros [Hlen Hin]. split.
  - simpl. rewrite !length_app. simpl. lia.
  - simpl. intros j q' g e Hj Hg He.
    destruct (decide (j < length qs)%nat) as [Hlt|Hge].
    + rewrite lookup_app_l in Hj by exact Hlt.
      rewrite lookup_app_l in Hg by lia. eauto.
    + assert (j = length qs) as ->.
      { apply lookup_lt_Some in Hj. rewrite length_app in Hj. simpl in Hj.
        lia. }
      rewrite lookup_app_r in Hj by lia.
      rewrite lookup_app_r in Hg by lia.
      rewrite Nat.sub_diag in Hj. rewrite Hlen, Nat.sub_diag in Hg.
      injection Hj as <-. injection Hg as <-. right.
      unfold trace. rewrite reports_worker. exact He.
Qed.

Lemma funnel_inv_step qs i w ev w' :
  funnel_inv qs w -> step i w = Some (ev, w') -> funnel_inv qs w'.
Proof.
  intros [Hlen Hin] Hstep.
  destruct (step_inv _ _ _ _ Hstep) as (g & g' & w1 & Hgi & Hadv & Hper & ->).
  destruct (perform_frame _ _ _ Hper) as (Hgs & _ & _ & Hcol).
  pose proof (trace_advance _ _ _ _ Hadv) as Htr.
  split.
  - simpl. rewrite length_insert, Hgs. exact Hlen.
  - simpl. rewrite Hgs, Hcol. intros j q gj e Hj Hgj He.
    destruct (decide (j = i)) as [->|Hne].
    + rewrite list_lookup_insert_eq in Hgj by (eapply lookup_lt_Some; eauto).
      injection Hgj as <-.
      destruct (Hin i q g e Hj Hgi He) as [Hc|Hp].
      * left. apply in_or_app. auto.
      * rewrite Htr in Hp.
        change (ev :: trace i g') with ([ev] ++ trace i g') in Hp.
        rewrite reports_app in Hp. apply in_app_or in Hp as [Hp|Hp].
        -- left. apply in_or_app. auto.
        -- right. exact Hp.
    + rewrite list_lookup_insert_ne in Hgj by congruence.
      destruct (Hin j q gj e Hj Hgj He) as [Hc|Hp]; [|auto].
      left. apply in_or_app. auto.
Qed.

Lemma funnel_inv_run qs sched w w' :
  funnel_inv qs w -> run sched w = Some w' ->
  funnel_inv (qs ++ calls sched) w'.
Proof.
  revert qs w. induction sched as [|a sched IH]; simpl; intros qs w Hw.
  - intros [= <-]. rewrite app_nil_r. exact Hw.
  - destruct (act a w) as [w1|] eqn:Ha; simpl; [|discriminate].
    destruct a as [q|i]; simpl in Ha.
    + injection Ha as <-. intros Hrun.
      replace (qs ++ q :: calls sched) with ((qs ++ [q]) ++ calls sched)
        by (rewrite <- app_assoc; reflexivity).
      eapply IH; [|exact Hrun]. apply funnel_inv_Query, Hw.
    + destruct (step i w) as [[ev w2]|] eqn:Hs; simpl in Ha; [|discriminate].
      injection Ha as <-. apply IH. eapply funnel_inv_step; eauto.
Qed.

(** A goroutine that is not done can take its step, unless the step is an
    [Acquire] and no permit is available. *)
Lemma can_step e0 qs w j g ev g' :
  batch_inv e0 qs w ->
  goroutines w !! j = Some g -> advance j g = Some (ev, g') ->
  (ev = EvAcquire ->
   held (semaphore (ctx w)) < capacity (semaphore (ctx w))) ->
  exists w', step j w = Some (ev, w').
Proof.
  intros (Hg & Hc & Hok & _) Hgj Hadv Hacq.
  assert (exists w1, perform ev w = Some w1) as [w1 Hper].
  { assert (j < length qs)%nat as Hj
      by (rewrite <- Hg; eapply lookup_lt_Some; eauto).
    destruct (lookup_lt_is_Some_2 qs j Hj) as [q Hq].
    destruct (Hok j q Hq) as (g0 & c & Hg0 & Hcj & Hjok).
    rewrite Hgj in Hg0. injection Hg0 as <-.
    destruct Hjok as [[-> Hlast]|[_ Hdone]].
    2:{ apply (proj2 (advance_None j g)) in Hdone. congruence. }
    rewrite (trace_advance _ _ _ _ Hadv) in Hlast.
    destruct (last_send_cons _ _ _ _ Hlast) as [[Hq' _]|[-> _]].
    - destruct ev; simpl in *; try discriminate; eauto.
      unfold Semaphore_Acquire.
      destruct (Z.ltb_spec (held (semaphore (ctx w)))
                  (capacity (semaphore (ctx w)))) as [_|Hge]; simpl; eauto.
      specialize (Hacq eq_refl). lia.
    - simpl. rewrite Hcj. simpl. eauto. }
  exists (set_goroutines w1 (<[j := g']> (goroutines w1))).
  unfold step. rewrite Hgj. simpl. rewrite Hadv. simpl. rewrite Hper.
  reflexivity.
Qed.

Lemma not_all_done gs :
  forallb is_done gs = false ->
  exists j g, gs !! j = Some g /\ is_done g = false.
Proof.
  induction gs as [|g gs IH]; simpl; [discriminate|].
  destruct (is_done g) eqn:Hd; simpl.
  - intros H. destruct (IH H) as (j & g0 & Hj & Hg0). exists (S j), g0. auto.
  - intros _. exists 0%nat, g. auto.
Qed.

Lemma some_holder hs : 1 <= permits_held hs -> exists k, hs !! k = Some true.
Proof.
  induction hs as [|h hs IH]; simpl; [lia|]. destruct h.
  - intros _. exists 0%nat. reflexivity.
  - intros H. destruct IH as [k Hk]; [lia|]. exists (S k). exact Hk.
Qed.

Lemma advance_holder j g :
  holds g true ->
  exists ev g', advance j g = Some (ev, g') /\ ev <> EvAcquire.
Proof.
  destruct g as [p|req k]; simpl.
  - intros H. inversion H; subst; simpl; eexists _, _;
      (split; [reflexivity|congruence]).
  - intros _. eexists _, _. split; [reflexivity|congruence].
Qed.

(** While some goroutine is not done, some goroutine can take a step: no
    failure of a query leaves the others waiting for a permit for ever. *)
Lemma progress N e0 qs w :
  1 <= N -> gate_inv N w -> batch_inv e0 qs w -> all_done w = false ->
  exists i ev w', step i w = Some (ev, w').
Proof.
  intros HN (hs & Hhs & Hheld & Hcap & Hle) Hb Hnd.
  destruct (Z.ltb_spec (held (semaphore (ctx w))) N) as [Hlt|Hge].
  - destruct (not_all_done _ Hnd) as (j & g & Hj & Hg).
    destruct (advance j g) as [[ev g']|] eqn:Hadv.
    + destruct (can_step _ _ _ _ _ _ _ Hb Hj Hadv) as [w' Hw']; [lia|].
      eauto.
    + apply (proj1 (advance_None j g)) in Hadv. congruence.
  - destruct (some_holder hs) as [k Hk]; [lia|].
    destruct (Forall2_lookup_r _ _ _ _ _ Hhs Hk) as (g & Hg & Hgk).
    destruct (advance_holder k g Hgk) as (ev & g' & Hadv & Hev).
    destruct (can_step _ _ _ _ _ _ _ Hb Hg Hadv) as [w' Hw']; [|eauto].
    intros ->. congruence.
Qed.

(** C7. [Query] and [QueryAll] return channels and nothing else, and leave
    the collected errors as they are, whatever the backend answers.  A worker
    passes the error of [query] and the error of the parser to the shared
    collector and then sends its result, which is the zero value when its
    query failed.  In the running program, once the worker of a query is done
    its errors are in the collector and its channel has delivered the result
    of its own query, which depends on its own query and answer only; and as
    long as some worker is not done some worker can take a step, so that no
    failed query stops the others. *)
Theorem errors_go_to_the_collector :
  (forall (queries : list string) (w : World),
     fst (QueryAll queries w)
     = Some (seq (length (chans w)) (length queries)) /\
     Errors (snd (QueryAll queries w)) = Errors w) /\
  (forall (i : nat) (q : string) (ch : QueryResultsChan),
     events i (worker q ch) =
       events i (query q) ++
       [EvReport (promErr_of i q); EvParse (fst (query_result i q));
        EvReport (parseErr_of i q); EvSend ch (results_of i q)] /\
     (failed (outcome_of i q) = true -> results_of i q = zeroResults)) /\
  (forall (N : Z) (queries : list string) (sched : list action) (w : World),
     1 <= N ->
     run sched (snd (QueryAll queries (start (mkContext [] (NewSemaphore N)))))
     = Some w ->
     (forall (j : nat) (q : string) (g : goroutine),
        (queries ++ calls sched) !! j = Some q -> goroutines w !! j = Some g ->
        is_done g = true ->
        (forall e : error,
           promErr_of j q = Some e \/ parseErr_of j q = Some e ->
           In e (Errors w)) /\
        exists ch : Chan,
          chans w !! j = Some ch /\ received ch = [results_of j q]) /\
     (all_done w = false ->
      exists (i : nat) (ev : event) (w' : World), step i w = Some (ev, w'))).
Proof.
  split; [|split].
  - intros queries w. split; [apply QueryAll_chans|].
    rewrite QueryAll_world. reflexivity.
  - intros i q ch. split; [apply events_worker|].
    unfold outcome_of. destruct (promErr_of i q) as [e|] eqn:He.
    + intros _. apply (outcome_FailedQuery i q). congruence.
    + unfold results_of, parseErr_of.
      destruct (snd (NewQueryResults (fst (query_result i q)))) eqn:Hp;
        [|discriminate].
      intros _. apply NewQueryResults_error. congruence.
  - intros N queries sched w HN Hrun.
    set (c := mkContext [] (NewSemaphore N)) in *.
    rewrite run_after_QueryAll in Hrun.
    pose proof (batch_inv_run _ [] _ _ _ (batch_inv_start c) Hrun) as Hb.
    pose proof (funnel_inv_run [] _ _ _ (funnel_inv_start c) Hrun) as Hf.
    rewrite calls_after_QueryAll in Hb, Hf.
    assert (gate_inv N w) as Hgate.
    { eapply gate_inv_run; [|exact Hrun]. apply gate_inv_start. lia. }
    simpl in Hb, Hf. split.
    + intros j q g Hj Hg Hdone. split.
      * intros e He. destruct Hf as [_ Hf].
        destruct (Hf j q g e Hj Hg) as [Hc|Hp]; [|exact Hc|].
        -- unfold errors_of. simpl.
           destruct He as [-> | ->]; simpl; [auto|].
           destruct (promErr_of j q); simpl; auto.
        -- rewrite (proj2 (trace_nil j g) Hdone) in Hp. destruct Hp.
      * destruct Hb as (_ & _ & Hok & _).
        destruct (Hok j q Hj) as (g0 & ch & Hg0 & Hch & Hjok).
        rewrite Hg in Hg0. injection Hg0 as <-. exists ch.
        split; [exact Hch|].
        destruct Hjok as [[_ (pre & Hpre & _)]|[-> _]]; [|reflexivity].
        rewrite (proj2 (trace_nil j g) Hdone) in Hpre.
        destruct pre; discriminate.
    + intros Hnd. eapply progress; eauto.
Qed.

End Proofs.

(* ===================================================================== *)
(** ** Further properties of the dispatcher *)

Section More.
Context `{Ext : Externals}.

Implicit Types (i : nat) (g : goroutine) (w : World) (tr : list event).

(** *** What [query] returns *)

(** X1. [query] returns a nil error exactly when the request could be built,
    [Client.Do] returned no error and the body decoded; it then returns the
    decoded value.  In every other case it returns a nil value with an
    error. *)
Theorem query_succeeds_iff (i : nat) (q : string) :
  (forall v : json,
     query_result i q = (v, None) <->
     exists req : Request,
       query_request q = inl req /\
       err (Client_Do i req) = None /\
       json_Unmarshal (body (Client_Do i req)) = inl v) /\
  (forall e : error,
     snd (query_result i q) = Some e -> fst (query_result i q) = JNull).
Proof.
  unfold query_result. rewrite result_query. split.
  - intros v. split.
    + destruct (query_request q) as [req|e]; [|discriminate]. simpl.
      destruct (err (Client_Do i req)) as [e|] eqn:He.
      * destruct (resp (Client_Do i req)); discriminate.
      * destruct (json_Unmarshal _) as [v'|e] eqn:Hd; [|discriminate].
        intros [= ->]. exists req. auto.
    + intros (req & -> & He & Hd). simpl. rewrite He, Hd. reflexivity.
  - intros e. destruct (query_request q) as [req|e']; [|reflexivity]. simpl.
    destruct (err (Client_Do i req)) as [e'|].
    + destruct (resp (Client_Do i req)); reflexivity.
    + destruct (json_Unmarshal _); [discriminate|reflexivity].
Qed.

(** *** Warnings *)

Lemma logged_app tr tr' : logged (tr ++ tr') = logged tr ++ logged tr'.
Proof.
  induction tr as [|ev tr IH]; simpl; [reflexivity|].
  destruct ev; simpl; congruence.
Qed.

Lemma logged_query_inner i q : logged (query_inner i q) = lines_of i q.
Proof.
  unfold query_inner, lines_of.
  destruct (query_request q) as [req|e]; [|reflexivity]. simpl.
  rewrite logged_app.
  replace (logged match err (Client_Do i req) with
                  | Some _ => []
                  | None => [EvUnmarshal (body (Client_Do i req))]
                  end) with (@nil (Z * string))
    by (destruct (err (Client_Do i req)); reflexivity).
  rewrite app_nil_r.
  induction (warnings (Client_Do i req)) as [|x l IH]; simpl;
    [reflexivity|]. rewrite IH. reflexivity.
Qed.

Lemma logged_worker i q ch : logged (events i (worker q ch)) = lines_of i q.
Proof.
  rewrite events_worker_shape, !logged_app, logged_query_inner. simpl.
  apply app_nil_r.
Qed.

(** X2. The worker logs one line for each warning of the response, in their
    order, at verbosity 3, whether [Client.Do] returned an error or not, and
    nothing when the request could not be built; it logs while it holds its
    permit; and whatever the number of warnings it reports at most two
    errors, those of [query] and of the parser. *)
Theorem warnings_are_logged (i : nat) (q : string) (ch : QueryResultsChan) :
  logged (events i (worker q ch)) =
    match query_request q with
    | inl req =>
        map (fun x => (3, "Warning '" +:+ x +:+ "' fetching query '"
                          +:+ q +:+ "'"))
            (warnings (Client_Do i req))
    | inr _ => []
    end /\
  Forall (fun h => h = 1)
    (holding_at (fun ev => match ev with EvInfof _ _ => true | _ => false end)
       0 (events i (worker q ch))) /\
  reports (events i (worker q ch)) =
    reports [EvReport (promErr_of i q); EvReport (parseErr_of i q)].
Proof.
  split; [apply logged_worker|]. split; [|apply reports_worker].
  rewrite events_worker_shape, !holding_at_app. simpl.
  rewrite app_nil_r.
  apply (holding_at_gate_free _ 1 _ (gate_free_query_inner i q)).
Qed.

(** *** Lists the goroutines append to *)

Lemma icat_app {A X} (f : nat -> A -> list X) n (l l' : list A) :
  icat f n (l ++ l') = icat f n l ++ icat f (n + length l) l'.
Proof.
  revert n. induction l as [|x l IH]; intros n; simpl.
  - rewrite Nat.add_0_r. reflexivity.
  - rewrite IH, Nat.add_succ_r, <- app_assoc. reflexivity.
Qed.

Lemma icat_insert {A X} (f : nat -> A -> list X) n (l : list A) (i : nat)
  (x y : A) (p : list X) :
  l !! i = Some x -> f (n + i)%nat x = p ++ f (n + i)%nat y ->
  icat f n l ≡ₚ p ++ icat f n (<[i := y]> l).
Proof.
  revert n i. induction l as [|z l IH]; intros n [|i]; simpl; try congruence.
  - intros [= ->]. rewrite Nat.add_0_r. intros ->.
    rewrite <- app_assoc. reflexivity.
  - intros Hi Hf. rewrite Nat.add_succ_r in Hf.
    rewrite (IH (S n) i Hi Hf). apply Permutation_app_swap_app.
Qed.

Lemma icat_nil {A X} (f : nat -> A -> list X) n (l : list A) :
  (forall j x, In x l -> f j x = []) -> icat f n l = [].
Proof.
  revert n. induction l as [|x l IH]; intros n H; simpl; [reflexivity|].
  rewrite (H n x) by (left; reflexivity).
  apply IH. intros j y Hy. apply H. right. exact Hy.
Qed.

Lemma icat_In {A X} (f : nat -> A -> list X) n (l : list A) (x : X) :
  In x (icat f n l) ->
  exists j a, l !! j = Some a /\ In x (f (n + j)%nat a).
Proof.
  revert n. induction l as [|a l IH]; intros n; simpl; [tauto|].
  intros H. apply in_app_or in H as [H|H].
  - exists 0%nat, a. rewrite Nat.add_0_r. auto.
  - destruct (IH _ H) as (j & b & Hj & Hx). exists (S j), b.
    rewrite Nat.add_succ_r. auto.
Qed.

Section Shared.

(** A list [L] of the shared state to which every operation [ev] appends
    [pi ev], and which [Query] leaves as it is; [total j q] is what the
    worker of [q] run by goroutine [j] appends in all. *)
Variables (X : Type) (pi : event -> list X) (L : World -> list X)
          (total : nat -> string -> list X).

Hypothesis L_perform : forall ev w w1,
  perform ev w = Some w1 -> L w1 = L w ++ pi ev.
Hypothesis L_goroutines : forall w gs, L (set_goroutines w gs) = L w.
Hypothesis L_chans : forall w cs, L (set_chans w cs) = L w.
Hypothesis total_worker : forall j q ch,
  flat_map pi (events j (worker q ch)) = total j q.

Local Abbreviation shared_inv := (shared_inv pi L total).

Lemma shared_inv_start c : shared_inv (L (start c)) [] (start c).
Proof. split; reflexivity. Qed.

Lemma shared_inv_Query L0 qs q w :
  shared_inv L0 qs w -> shared_inv L0 (qs ++ [q]) (snd (Query q w)).
Proof.
  intros [Hlen Hperm]. split.
  - simpl. rewrite !length_app. simpl. lia.
  - unfold Query. cbn [snd set_goroutines set_chans goroutines].
    rewrite L_goroutines, L_chans, !icat_app. cbn [icat trace].
    rewrite !app_nil_r, Hlen, total_worker, !app_assoc, Hperm.
    rewrite Nat.add_0_l. reflexivity.
Qed.

Lemma shared_inv_step L0 qs i w ev w' :
  shared_inv L0 qs w -> step i w = Some (ev, w') -> shared_inv L0 qs w'.
Proof.
  intros [Hlen Hperm] Hstep.
  destruct (step_inv _ _ _ _ Hstep) as (g & g' & w1 & Hgi & Hadv & Hper & ->).
  destruct (perform_frame _ _ _ Hper) as (Hgs & _ & _ & _).
  pose proof (trace_advance _ _ _ _ Hadv) as Htr.
  split.
  - simpl. rewrite length_insert, Hgs. exact Hlen.
  - simpl. rewrite L_goroutines, (L_perform _ _ _ Hper), Hgs, <- Hperm.
    rewrite <- app_assoc. apply Permutation_app_head. symmetry.
    apply (icat_insert (fun j g => flat_map pi (trace j g)) 0 _ i g g').
    + exact Hgi.
    + simpl. rewrite Htr. simpl. reflexivity.
Qed.

Lemma shared_inv_run L0 qs sched w w' :
  shared_inv L0 qs w -> run sched w = Some w' ->
  shared_inv L0 (qs ++ calls sched) w'.
Proof.
  revert qs w. induction sched as [|a sched IH]; simpl; intros qs w Hw.
  - intros [= <-]. rewrite app_nil_r. exact Hw.
  - destruct (act a w) as [w1|] eqn:Ha; simpl; [|discriminate].
    destruct a as [q|i]; simpl in Ha.
    + injection Ha as <-. intros Hrun.
      replace (qs ++ q :: calls sched) with ((qs ++ [q]) ++ calls sched)
        by (rewrite <- app_assoc; reflexivity).
      eapply IH; [|exact Hrun]. apply shared_inv_Query, Hw.
    + destruct (step i w) as [[ev w2]|] eqn:Hs; simpl in Ha; [|discriminate].
      injection Ha as <-. apply IH. eapply shared_inv_step; eauto.
Qed.

Lemma shared_batch c queries sched w :
  run sched (snd (QueryAll queries (start c))) = Some w ->
  L w ++ icat (fun j g => flat_map pi (trace j g)) 0 (goroutines w)
  ≡ₚ L (start c) ++ icat total 0 (queries ++ calls sched).
Proof.
  intros Hrun. rewrite run_after_QueryAll in Hrun.
  pose proof (shared_inv_run _ [] _ _ _ (shared_inv_start c) Hrun) as [_ H].
  rewrite calls_after_QueryAll in H. exact H.
Qed.

Lemma shared_done w :
  all_done w = true ->
  icat (fun j g => flat_map pi (trace j g)) 0 (goroutines w) = [].
Proof.
  intros Hdone. apply icat_nil. intros j g Hg.
  unfold all_done in Hdone. rewrite forallb_forall in Hdone.
  rewrite (proj2 (trace_nil j g) (Hdone g Hg)). reflexivity.
Qed.

End Shared.

(** *** The collector and the log of a batch *)

Lemma reports_flat tr : flat_map (fun ev => reports [ev]) tr = reports tr.
Proof.
  induction tr as [|ev tr IH]; [reflexivity|]. cbn [flat_map].
  rewrite IH. destruct ev; try reflexivity. destruct e; reflexivity.
Qed.

Lemma logged_flat tr : flat_map (fun ev => logged [ev]) tr = logged tr.
Proof.
  induction tr as [|ev tr IH]; [reflexivity|]. cbn [flat_map].
  rewrite IH. destruct ev; reflexivity.
Qed.

Lemma perform_klog ev w w1 :
  perform ev w = Some w1 -> klog w1 = klog w ++ logged [ev].
Proof.
  destruct ev; simpl.
  - destruct (Semaphore_Acquire _); simpl; [|congruence].
    intros [= <-]. simpl. rewrite app_nil_r. auto.
  - intros [= <-]. simpl. rewrite app_nil_r. auto.
  - intros [= <-]. rewrite app_nil_r. auto.
  - intros [= <-]. rewrite app_nil_r. auto.
  - intros [= <-]. reflexivity.
  - intros [= <-]. rewrite app_nil_r. auto.
  - intros [= <-]. simpl. rewrite app_nil_r. auto.
  - intros [= <-]. rewrite app_nil_r. auto.
  - destruct (chans w !! ch) as [c|]; simpl; [|congruence].
    destruct (closed c); [congruence|]. intros [= <-]. simpl.
    rewrite app_nil_r. reflexivity.
  - destruct (chans w !! ch) as [c|]; simpl; [|congruence].
    destruct (closed c); [congruence|]. intros [= <-]. simpl.
    rewrite app_nil_r. reflexivity.
Qed.

Lemma errors_batch c queries sched w :
  run sched (snd (QueryAll queries (start c))) = Some w ->
  Errors w ++ icat (fun j g => flat_map (fun ev => reports [ev]) (trace j g))
                0 (goroutines w)
  ≡ₚ collector c ++ icat errors_of 0 (queries ++ calls sched).
Proof.
  intros Hrun.
  pose proof (shared_batch error (fun ev => reports [ev])
                (fun w => collector (ctx w)) errors_of) as H.
  specialize (H (fun ev w w1 Hp =>
                   proj2 (proj2 (proj2 (perform_frame ev w w1 Hp))))
                (fun _ _ => eq_refl) (fun _ _ => eq_refl)).
  specialize (H (fun j q ch =>
                   eq_trans (reports_flat _) (reports_worker j q ch))
                c queries sched w Hrun).
  exact H.
Qed.

(** X4. When every worker of a batch is done, the collector holds, after the
    errors it held at the start and in some order, exactly the errors of the
    queries of the batch, each as often as its worker reported it: the error
    of [query] and the error of the parser of each query, when not nil. *)
Theorem collector_of_a_drained_batch (c : Context) (queries : list string)
  (sched : list action) (w : World) :
  run sched (snd (QueryAll queries (start c))) = Some w ->
  all_done w = true ->
  Errors w ≡ₚ
    collector c ++
    icat (fun j q => reports [EvReport (promErr_of j q);
                              EvReport (parseErr_of j q)])
      0 (queries ++ calls sched).
Proof.
  intros Hrun Hdone.
  change (Errors w ≡ₚ collector c ++ icat errors_of 0 (queries ++ calls sched)).
  rewrite <- (errors_batch c queries sched w Hrun).
  rewrite shared_done by exact Hdone. rewrite app_nil_r. reflexivity.
Qed.

(** X5. At every moment, every error in a collector that was empty at the start
    is the error of [query] or the error of the parser of one of the
    queries submitted: the collector never holds anything else. *)
Theorem collector_holds_only_query_errors (N : Z) (queries : list string)
  (sched : list action) (w : World) (e : error) :
  run sched (snd (QueryAll queries (start (mkContext [] (NewSemaphore N)))))
  = Some w ->
  In e (Errors w) ->
  exists (j : nat) (q : string),
    (queries ++ calls sched) !! j = Some q /\
    (promErr_of j q = Some e \/ parseErr_of j q = Some e).
Proof.
  intros Hrun He.
  pose proof (errors_batch _ queries sched w Hrun) as H. simpl in H.
  assert (In e (icat errors_of 0 (queries ++ calls sched))) as Hin.
  { eapply Permutation_in; [exact H|]. apply in_or_app. auto. }
  destruct (icat_In _ _ _ _ Hin) as (j & q & Hj & Hq).
  exists j, q. split; [exact Hj|]. simpl in Hq. unfold errors_of in Hq.
  simpl in Hq.
  destruct (promErr_of j q) as [e1|]; destruct (parseErr_of j q) as [e2|];
    simpl in Hq; intuition congruence.
Qed.

Lemma log_batch c queries sched w :
  run sched (snd (QueryAll queries (start c))) = Some w ->
  klog w ++ icat (fun j g => flat_map (fun ev => logged [ev]) (trace j g)) 0
              (goroutines w)
  ≡ₚ icat lines_of 0 (queries ++ calls sched).
Proof.
  intros Hrun.
  pose proof (shared_batch (Z * string) (fun ev => logged [ev]) klog lines_of)
    as H.
  specialize (H perform_klog (fun _ _ => eq_refl) (fun _ _ => eq_refl)).
  specialize (H (fun j q ch =>
                   eq_trans (logged_flat _) (logged_worker j q ch))
                c queries sched w Hrun).
  exact H.
Qed.

(** X3. When every worker of a batch is done, the log holds, in some order,
    exactly one line for each warning of each response, and nothing else. *)
Theorem log_of_a_drained_batch (c : Context) (queries : list string)
  (sched : list action) (w : World) :
  run sched (snd (QueryAll queries (start c))) = Some w ->
  all_done w = true ->
  klog w ≡ₚ
    icat (fun j q =>
            match query_request q with
            | inl req =>
                map (fun x => (3, "Warning '" +:+ x +:+ "' fetching query '"
                                  +:+ q +:+ "'"))
                    (warnings (Client_Do j req))
            | inr _ => []
            end) 0 (queries ++ calls sched).
Proof.
  intros Hrun Hdone. rewrite <- (log_batch c queries sched w Hrun).
  rewrite shared_done by exact Hdone. rewrite app_nil_r. reflexivity.
Qed.

(** *** Permits outside [query] *)

Lemma events_nil {A} i (p : prog A) : events i p = [] -> exists a, p = Ret a.
Proof. destruct p; simpl; try discriminate. eauto. Qed.

Lemma permits_held_none hs :
  (forall j h, hs !! j = Some h -> h = false) -> permits_held hs = 0.
Proof.
  induction hs as [|h hs IH]; intros H; simpl; [reflexivity|].
  rewrite (H 0%nat h eq_refl), IH; [reflexivity|].
  intros j h' Hj. apply (H (S j)). exact Hj.
Qed.

Lemma inflight_none gs :
  forallb (fun g => is_done g || at_send g) gs = true ->
  length (filter (fun g => is_inflight g = true) gs) = 0%nat.
Proof.
  induction gs as [|g gs IH]; simpl; [reflexivity|].
  intros H. apply andb_prop in H as [Hg Hgs]. rewrite filter_cons.
  destruct g as [p|req k]; simpl in *; [auto|discriminate].
Qed.

Lemma held_none_at_the_send (N : Z) (ec : ErrorCollector)
  (queries : list string) (sched : list action) (w : World) :
  0 <= N ->
  run sched (snd (QueryAll queries (start (mkContext ec (NewSemaphore N)))))
  = Some w ->
  forallb (fun g => is_done g || at_send g) (goroutines w) = true ->
  held (semaphore (ctx w)) = 0.
Proof.
  intros HN Hrun Hall.
  rewrite run_after_QueryAll in Hrun.
  pose proof (gate_inv_run N _ _ _ (gate_inv_start N ec HN) Hrun)
    as (hs & Hhs & -> & _ & _).
  pose proof (batch_inv_run _ [] _ _ _
                (batch_inv_start (mkContext ec (NewSemaphore N))) Hrun)
    as (Hlen & _ & Hok & _).
  apply permits_held_none. intros j h Hj.
  destruct (Forall2_lookup_r _ _ _ _ _ Hhs Hj) as (g & Hg & Hgh).
  rewrite forallb_forall in Hall.
  assert (is_done g || at_send g = true) as Hga.
  { apply Hall. apply list_elem_of_In. eapply list_elem_of_lookup_2; eauto. }
  destruct g as [p|req k]; [|discriminate]. simpl in Hgh.
  destruct p; simpl in Hga; try discriminate.
  - inversion Hgh; reflexivity.
  - assert (j < length ([] ++ calls (map Call queries ++ sched)))%nat as Hlt.
    { rewrite <- Hlen. eapply lookup_lt_Some; eauto. }
    destruct (lookup_lt_is_Some_2 _ j Hlt) as [q Hq].
    destruct (Hok j q Hq) as (g0 & c & Hg0 & _ & Hjok).
    rewrite Hg in Hg0. injection Hg0 as <-.
    destruct Hjok as [[_ Hlast]|[_ Hd]]; [|discriminate].
    simpl in Hlast.
    destruct (last_send_cons _ _ _ _ Hlast) as [[Hqt _]|[_ Hnil]];
      [discriminate|].
    destruct (events_nil _ _ Hnil) as [a ->].
    inversion Hgh; subst.
    match goal with H : gated _ (Ret _) _ |- _ => inversion H end.
    reflexivity.
Qed.

(** X7. A goroutine that waits for the receiver of its channel holds no permit:
    when every goroutine is done or waits for its receiver, no permit is held
    and no request is in flight, so that channels nobody reads take nothing
    from the gate. *)
Theorem no_permit_held_at_the_send (N : Z) (ec : ErrorCollector)
  (queries : list string) (sched : list action) (w : World) :
  0 <= N ->
  run sched (snd (QueryAll queries (start (mkContext ec (NewSemaphore N)))))
  = Some w ->
  forallb (fun g => is_done g || at_send g) (goroutines w) = true ->
  held (semaphore (ctx w)) = 0 /\ inflight w = 0%nat.
Proof.
  intros HN Hrun Hall. split; [|apply inflight_none, Hall].
  eapply held_none_at_the_send; eauto.
Qed.

(** X8. Every request in flight is covered by a held permit: at every moment
    the number of requests sent and not yet answered is at most the number of
    held permits. *)
Theorem inflight_covered_by_permits (N : Z) (ec : ErrorCollector)
  (queries : list string) (sched : list action) (w : World) :
  0 <= N ->
  run sched (snd (QueryAll queries (start (mkContext ec (NewSemaphore N)))))
  = Some w ->
  Z.of_nat (inflight w) <= held (semaphore (ctx w)).
Proof.
  intros HN Hrun. rewrite run_after_QueryAll in Hrun.
  pose proof (gate_inv_run N _ _ _ (gate_inv_start N ec HN) Hrun) as Hinv.
  apply (gate_inv_bounds N w Hinv).
Qed.

(** *** The end of a batch *)

Lemma is_done_Ret g : is_done g = true -> g = Ready (Ret tt).
Proof.
  destruct g as [p|req k]; [|discriminate].
  destruct p as [[]| | | | | | | | |]; try discriminate. reflexivity.
Qed.

(** X9. When every worker of a batch is done, the state does not depend on the
    schedule that led to it: every goroutine has ended, the channel of each
    query is open and has delivered the result of that query and nothing
    else, and the semaphore is as it was made, with no permit held. *)
Theorem drained_batch_state (N : Z) (ec : ErrorCollector)
  (queries : list string) (sched : list action) (w : World) :
  0 <= N ->
  run sched (snd (QueryAll queries (start (mkContext ec (NewSemaphore N)))))
  = Some w ->
  all_done w = true ->
  goroutines w
  = replicate (length (queries ++ calls sched)) (Ready (Ret tt)) /\
  chans w
  = imap (fun j q => mkChan [results_of j q] false) (queries ++ calls sched) /\
  semaphore (ctx w) = NewSemaphore N.
Proof.
  intros HN Hrun Hdone.
  assert (forallb (fun g => is_done g || at_send g) (goroutines w) = true)
    as Hall.
  { unfold all_done in Hdone. rewrite forallb_forall in *.
    intros g Hg. rewrite (Hdone g Hg). reflexivity. }
  pose proof (held_none_at_the_send N ec queries sched w HN Hrun Hall)
    as Hheld.
  rewrite run_after_QueryAll in Hrun.
  pose proof (gate_inv_run N _ _ _ (gate_inv_start N ec HN) Hrun)
    as (_ & _ & _ & Hcap & _).
  pose proof (batch_inv_run _ [] _ _ _
                (batch_inv_start (mkContext ec (NewSemaphore N))) Hrun)
    as (Hlen & Hclen & Hok & _).
  rewrite calls_after_QueryAll in Hlen, Hclen, Hok.
  simpl in Hlen, Hclen, Hok.
  unfold all_done in Hdone. rewrite forallb_forall in Hdone.
  split; [|split].
  - apply list_eq. intros j.
    destruct (goroutines w !! j) as [g|] eqn:Hg.
    + rewrite lookup_replicate_2
        by (rewrite <- Hlen; eapply lookup_lt_Some; eauto).
      f_equal. apply is_done_Ret, Hdone, list_elem_of_In.
      eapply list_elem_of_lookup_2; eauto.
    + symmetry. apply lookup_replicate_None.
      rewrite <- Hlen. apply lookup_ge_None. exact Hg.
  - apply list_eq. intros j. rewrite list_lookup_imap.
    destruct ((queries ++ calls sched) !! j) as [q|] eqn:Hq; simpl.
    + destruct (Hok j q Hq) as (g & c & Hg & Hc & Hjok). rewrite Hc.
      destruct Hjok as [[_ (pre & Hpre & _)]|[-> _]]; [|reflexivity].
      assert (is_done g = true) as Hd.
      { apply Hdone, list_elem_of_In. eapply list_elem_of_lookup_2; eauto. }
      rewrite (proj2 (trace_nil j g) Hd) in Hpre. destruct pre; discriminate.
    + apply lookup_ge_None. rewrite Hclen. apply lookup_ge_None. exact Hq.
  - destruct (semaphore (ctx w)) as [cap h]. simpl in *. unfold NewSemaphore.
    congruence.
Qed.

(** *** Every batch can be drained *)

Lemma remaining_ops_step i w ev w' :
  step i w = Some (ev, w') -> remaining_ops w = S (remaining_ops w').
Proof.
  intros Hstep.
  destruct (step_inv _ _ _ _ Hstep) as (g & g' & w1 & Hgi & Hadv & Hper & ->).
  destruct (perform_frame _ _ _ Hper) as (Hgs & _ & _ & _).
  pose proof (trace_advance _ _ _ _ Hadv) as Htr.
  unfold remaining_ops. simpl. rewrite Hgs.
  pose proof (isum_insert (fun j g => length (trace j g)) 0 (goroutines w)
                i g g' Hgi) as H.
  simpl in H. rewrite Htr in H. simpl in H. lia.
Qed.

Lemma remaining_ops_done w : all_done w = true -> remaining_ops w = 0%nat.
Proof.
  unfold all_done, remaining_ops.
  assert (forall gs n, forallb is_done gs = true ->
                       isum (fun j g => length (trace j g)) n gs = 0%nat)
    as H; [|apply H].
  induction gs as [|g gs IH]; intros n; simpl; [reflexivity|].
  intros H. apply andb_prop in H as [Hg Hgs].
  rewrite (IH _ Hgs), (proj2 (trace_nil n g) Hg). reflexivity.
Qed.

Lemma drain N e0 qs (m : nat) w :
  1 <= N -> gate_inv N w -> batch_inv e0 qs w ->
  (remaining_ops w <= m)%nat ->
  exists (js : list nat) (w' : World),
    run (map Step js) w = Some w' /\ all_done w' = true /\
    length js = remaining_ops w.
Proof.
  intros HN. revert w. induction m as [|m IH]; intros w Hgate Hbatch Hm;
    destruct (all_done w) eqn:Hd;
    try (exists [], w; rewrite (remaining_ops_done _ Hd); auto);
    destruct (progress N e0 qs w HN Hgate Hbatch Hd) as (i & ev & w1 & Hs);
    pose proof (remaining_ops_step _ _ _ _ Hs) as Hrem; [lia|].
  destruct (IH w1) as (js & w' & Hrun & Hdone & Hlen).
  - eapply gate_inv_step; eauto.
  - eapply batch_inv_step; eauto.
  - lia.
  - exists (i :: js), w'. simpl. rewrite Hs. simpl.
    repeat split; auto. lia.
Qed.

(** X10. With a gate of capacity at least 1, a batch can be drained from every
    state it can reach: whatever has happened, failures included, some
    sequence of goroutine steps, with no further call of [Query], brings every
    worker to its end; it has as many steps as operations were left. *)
Theorem batch_can_always_be_drained (N : Z) (ec : ErrorCollector)
  (queries : list string) (sched : list action) (w : World) :
  1 <= N ->
  run sched (snd (QueryAll queries (start (mkContext ec (NewSemaphore N)))))
  = Some w ->
  exists (js : list nat) (w' : World),
    run (map Step js) w = Some w' /\ all_done w' = true /\
    length js = remaining_ops w.
Proof.
  intros HN Hrun. rewrite run_after_QueryAll in Hrun.
  eapply (drain N _ _ (remaining_ops w)); [exact HN| | |lia].
  - eapply gate_inv_run; [|exact Hrun]. apply gate_inv_start. lia.
  - eapply batch_inv_run; [|exact Hrun]. apply batch_inv_start.
Qed.

(** *** [QueryAll] and the state it finds *)

(** X13. [QueryAll] only adds: it leaves the context (collector and semaphore),
    the log, the goroutines and the channels it finds as they are, sends no
    request, and adds one goroutine and one channel for each query; the
    channels it returns are distinct from each other, did not exist before,
    and are open and empty. *)
Theorem QueryAll_only_adds (queries : list string) (w : World) :
  ctx (snd (QueryAll queries w)) = ctx w /\
  klog (snd (QueryAll queries w)) = klog w /\
  inflight (snd (QueryAll queries w)) = inflight w /\
  take (length (goroutines w)) (goroutines (snd (QueryAll queries w)))
  = goroutines w /\
  take (length (chans w)) (chans (snd (QueryAll queries w))) = chans w /\
  length (goroutines (snd (QueryAll queries w)))
  = (length (goroutines w) + length queries)%nat /\
  length (chans (snd (QueryAll queries w)))
  = (length (chans w) + length queries)%nat /\
  NoDup (elems (fst (QueryAll queries w))) /\
  forall ch : QueryResultsChan,
    In ch (elems (fst (QueryAll queries w))) ->
    chans w !! ch = None /\
    chans (snd (QueryAll queries w)) !! ch = Some (mkChan [] false).
Proof.
  rewrite QueryAll_world, QueryAll_chans. simpl.
  repeat split.
  - unfold inflight. simpl. rewrite filter_app, length_app.
    replace (length (filter (fun g => is_inflight g = true)
                       (imap (fun j q => Ready (worker q (length (chans w) + j)))
                          queries))) with 0%nat; [lia|].
    generalize (length (chans w)). induction queries as [|q l IH]; intros n;
      simpl; [reflexivity|].
    rewrite filter_cons. simpl.
    rewrite (imap_ext _ (fun j q => Ready (worker q (S n + j)))) with (l := l)
      by (intros; simpl; f_equal; f_equal; lia).
    apply IH.
  - apply take_app_length.
  - apply take_app_length.
  - rewrite length_app, length_imap. reflexivity.
  - rewrite length_app, length_replicate. reflexivity.
  - apply NoDup_ListNoDup, List.seq_NoDup.
  - apply lookup_ge_None. apply in_seq in H. lia.
  - apply in_seq in H. rewrite lookup_app_r by lia.
    apply lookup_replicate_2. lia.
Qed.

(** X14. A batch given in two parts is the batch given at once: [QueryAll] on
    the queries [qs1 ++ qs2] returns the channels of [QueryAll] on [qs1]
    followed by those of [QueryAll] on [qs2] called next, and leaves the same
    state. *)
Theorem QueryAll_app (qs1 qs2 : list string) (w : World) :
  fst (QueryAll (qs1 ++ qs2) w)
  = Some (elems (fst (QueryAll qs1 w))
          ++ elems (fst (QueryAll qs2 (snd (QueryAll qs1 w))))) /\
  snd (QueryAll (qs1 ++ qs2) w) = snd (QueryAll qs2 (snd (QueryAll qs1 w))).
Proof.
  rewrite !QueryAll_chans, !QueryAll_world. simpl.
  rewrite !length_app, length_replicate, imap_app, replicate_add.
  rewrite seq_app, <- !app_assoc. split; [reflexivity|].
  f_equal. f_equal. f_equal. apply imap_ext. intros j q _. simpl.
  f_equal. f_equal. lia.
Qed.

(** *** A gate as wide as the batch *)

Lemma permits_held_le hs (j : nat) :
  hs !! j = Some false -> permits_held hs < Z.of_nat (length hs).
Proof.
  revert j. induction hs as [|h hs IH]; intros [|j]; simpl; try discriminate.
  - intros [= ->]. clear IH.
    assert (permits_held hs <= Z.of_nat (length hs)); [|lia].
    induction hs as [|[] hs IH]; simpl; lia.
  - intros Hj. specialize (IH j Hj). destruct h; lia.
Qed.

(** X15. When the gate has at least as many permits as queries have been
    submitted, no worker ever waits for a permit: at every moment every
    goroutine that is not done can take its next step. *)
Theorem no_waiting_when_capacity_suffices (N : Z) (ec : ErrorCollector)
  (queries : list string) (sched : list action) (w : World) (j : nat)
  (g : goroutine) :
  Z.of_nat (length (queries ++ calls sched)) <= N ->
  run sched (snd (QueryAll queries (start (mkContext ec (NewSemaphore N)))))
  = Some w ->
  goroutines w !! j = Some g -> is_done g = false ->
  exists (ev : event) (w' : World), step j w = Some (ev, w').
Proof.
  intros HN Hrun Hg Hnd. rewrite run_after_QueryAll in Hrun.
  assert (0 <= N) as HN0 by lia.
  pose proof (gate_inv_run N _ _ _ (gate_inv_start N ec HN0) Hrun)
    as (hs & Hhs & Hheld & Hcap & _).
  pose proof (batch_inv_run _ [] _ _ _
                (batch_inv_start (mkContext ec (NewSemaphore N))) Hrun)
    as Hb.
  rewrite calls_after_QueryAll in Hb. simpl in Hb.
  destruct (advance j g) as [[ev g']|] eqn:Hadv.
  2:{ apply (proj1 (advance_None j g)) in Hadv. congruence. }
  exists ev. eapply can_step; eauto. intros ->.
  destruct (Forall2_lookup_l _ _ _ _ _ Hhs Hg) as (h & Hh & Hgh).
  assert (h = false) as ->.
  { destruct g as [p|req k]; simpl in Hadv; [|discriminate].
    destruct p; try discriminate. simpl in Hgh. inversion Hgh. reflexivity. }
  pose proof (permits_held_le _ _ Hh) as Hlt.
  rewrite <- (Forall2_length _ _ _ Hhs) in Hlt.
  destruct Hb as (Hlen & _). rewrite Hlen in Hlt. lia.
Qed.

End More.


(* ===================================================================== *)
(** ** The statements on the sample collaborators *)

(** *** The statements of the specification that the code does not satisfy *)

(** C2: on a backend that answers, the worker of [up] sends its result and
    closes nothing. *)
Lemma sends_once_then_closes_refuted :
  closes_after_send 0 (@events Sample.ok _ 0 (@worker Sample.ok "up" 0%nat))
  = false /\
  ~ @sends_once_then_closes Sample.ok.
Proof.
  split; [vm_compute; reflexivity|]. intros H.
  destruct (H 0%nat "up"%string 0%nat) as [_ Hc].
  vm_compute in Hc. discriminate.
Qed.

(** C4: on a backend that answers, the worker of [up] decodes the body
    while it holds its permit, and parses with none. *)
Lemma decodes_without_permit_refuted :
  holding_at (fun ev => decode_op ev || parse_op ev) 0
    (@events Sample.ok _ 0 (@worker Sample.ok "up" 0%nat)) = [1; 0] /\
  ~ @decodes_without_permit Sample.ok.
Proof.
  assert (E : holding_at (fun ev => decode_op ev || parse_op ev) 0
                (@events Sample.ok _ 0 (@worker Sample.ok "up" 0%nat))
              = [1; 0]) by (vm_compute; reflexivity).
  split; [exact E|]. intros H. specialize (H 0%nat "up"%string 0%nat).
  rewrite E in H. inversion H; subst. discriminate.
Qed.

(** C8: a response of status 500 that comes with no error of [Client.Do] is
    decoded, and [query] returns no error. *)
Lemma non_2xx_is_transport_error_refuted :
  @query_request Sample.status500 "q1" = inl Sample.q1_request /\
  resp (Sample.answers_500 0 Sample.q1_request) = Some (mkResponse 500) /\
  @promErr_of Sample.status500 0 "q1" = None /\
  ~ @non_2xx_is_transport_error Sample.status500.
Proof.
  assert (Hreq : @query_request Sample.status500 "q1"
                 = inl Sample.q1_request) by (vm_compute; reflexivity).
  assert (Hnone : @promErr_of Sample.status500 0 "q1" = None)
    by (vm_compute; reflexivity).
  refine (conj Hreq (conj eq_refl (conj Hnone _))). intros H.
  destruct (H 0%nat "q1"%string Sample.q1_request (mkResponse 500)
              Hreq eq_refl) as [Hne _].
  - right. simpl. lia.
  - exact (Hne Hnone).
Qed.

(** C9: with a client whose URL [http.NewRequest] refuses, the worker sends
    no request. *)
Lemma issues_exactly_one_POST_refuted :
  issues (@events Sample.bad_host _ 0 (@worker Sample.bad_host "up" 0%nat))
  = [] /\
  ~ @issues_exactly_one_POST Sample.bad_host.
Proof.
  split; [vm_compute; reflexivity|]. intros H.
  destruct (H 0%nat "up"%string 0%nat) as (req & Hiss & _).
  vm_compute in Hiss. discriminate.
Qed.

(** *** Instances of the theorems *)

Lemma QueryAll_length_order_witness :
  Sample.three_queries !! 1%nat = Some "rate(x[5m])"%string /\
  len (fst (@QueryAll Sample.ok Sample.three_queries (start NewContext)))
  = 3%nat /\
  elems (fst (@QueryAll Sample.ok Sample.three_queries (start NewContext)))
    !! 1%nat = Some 1%nat.
Proof.
  assert (H : Sample.three_queries !! 1%nat = Some "rate(x[5m])"%string)
    by (vm_compute; reflexivity).
  destruct (@QueryAll_length_order Sample.ok Sample.three_queries
              (start NewContext)) as [Hlen Hall].
  destruct (Hall 1%nat _ H) as (Hch & _ & _).
  vm_compute in Hlen, Hch. vm_compute. exact (conj H (conj Hlen Hch)).
Defined.

Lemma inflight_never_exceeds_capacity_witness :
  0 <= 1 /\
  @run Sample.ok [Step 0; Step 0]
    (snd (@QueryAll Sample.ok Sample.two_queries (start (Sample.context 1))))
  = Some Sample.one_in_flight /\
  inflight Sample.one_in_flight = 1%nat /\
  Z.of_nat (inflight Sample.one_in_flight) <= 1.
Proof.
  assert (H01 : 0 <= 1) by lia.
  assert (Hrun : @run Sample.ok [Step 0; Step 0]
                   (snd (@QueryAll Sample.ok Sample.two_queries
                           (start (Sample.context 1))))
                 = Some Sample.one_in_flight) by (vm_compute; reflexivity).
  refine (conj H01 (conj Hrun (conj _ _))).
  - vm_compute; reflexivity.
  - exact (proj2 (proj2 (@inflight_never_exceeds_capacity Sample.ok)
                    1 [] Sample.two_queries [Step 0; Step 0]
                    Sample.one_in_flight H01 Hrun)).
Defined.

Lemma query_returns_its_permit_witness :
  0 <= 1 /\
  @run Sample.ok [Step 0; Step 0]
    (snd (@QueryAll Sample.ok Sample.two_queries (start (Sample.context 1))))
  = Some Sample.one_in_flight /\
  held (semaphore (ctx Sample.one_in_flight)) = 1 /\
  0 <= held (semaphore (ctx Sample.one_in_flight)) <= 1.
Proof.
  assert (H01 : 0 <= 1) by lia.
  assert (Hrun : @run Sample.ok [Step 0; Step 0]
                   (snd (@QueryAll Sample.ok Sample.two_queries
                           (start (Sample.context 1))))
                 = Some Sample.one_in_flight) by (vm_compute; reflexivity).
  refine (conj H01 (conj Hrun (conj _ _))).
  - vm_compute; reflexivity.
  - exact (proj2 (@query_returns_its_permit Sample.ok)
             1 [] Sample.two_queries [Step 0; Step 0]
             Sample.one_in_flight H01 Hrun).
Defined.

Lemma permit_returned_after_decode_witness :
  @query_request Sample.ok "up" = inl Sample.up_request /\
  err (Sample.answers_ok 0 Sample.up_request) = None /\
  holding_at decode_op 0 (@events Sample.ok _ 0 (@worker Sample.ok "up" 0%nat))
  = [1].
Proof.
  assert (Hreq : @query_request Sample.ok "up" = inl Sample.up_request)
    by (vm_compute; reflexivity).
  assert (Herr : err (Sample.answers_ok 0 Sample.up_request) = None)
    by (vm_compute; reflexivity).
  refine (conj Hreq (conj Herr _)).
  exact (proj2 (proj2 (proj2
           (@permit_returned_after_decode Sample.ok 0%nat "up"%string 0%nat)))
           Sample.up_request Hreq Herr).
Defined.

Lemma worker_sends_once_and_never_closes_witness :
  @run Sample.ok (Sample.one_by_one 2 10)
    (snd (@QueryAll Sample.ok Sample.two_queries (start (Sample.context 1))))
  = Some Sample.both_answered /\
  (Sample.two_queries ++ calls (Sample.one_by_one 2 10)) !! 1%nat
  = Some "q2"%string /\
  exists (g : goroutine) (ch : Chan),
    goroutines Sample.both_answered !! 1%nat = Some g /\
    chans Sample.both_answered !! 1%nat = Some ch /\
    closed ch = false /\
    received ch = if is_done g then [@results_of Sample.ok 1 "q2"] else [].
Proof.
  assert (Hrun : @run Sample.ok (Sample.one_by_one 2 10)
                   (snd (@QueryAll Sample.ok Sample.two_queries
                           (start (Sample.context 1))))
                 = Some Sample.both_answered) by (vm_compute; reflexivity).
  assert (Hq : (Sample.two_queries ++ calls (Sample.one_by_one 2 10)) !! 1%nat
               = Some "q2"%string) by (vm_compute; reflexivity).
  refine (conj Hrun (conj Hq _)).
  exact (proj2 (@worker_sends_once_and_never_closes Sample.ok)
           (Sample.context 1) Sample.two_queries (Sample.one_by_one 2 10)
           Sample.both_answered Hrun 1%nat "q2"%string Hq).
Defined.

Lemma errors_go_to_the_collector_witness :
  1 <= 1 /\
  @run Sample.down (Sample.one_by_one 2 8)
    (snd (@QueryAll Sample.down Sample.two_queries (start (Sample.context 1))))
  = Some Sample.both_failed /\
  (Sample.two_queries ++ calls (Sample.one_by_one 2 8)) !! 0%nat
  = Some "q1"%string /\
  @failed (@outcome_of Sample.down 0 "q1") = true /\
  @results_of Sample.down 0 "q1" = zeroResults /\
  In (errorString
        "500 Error server returned HTTP status 500 fetching query q1")
     (Errors Sample.both_failed) /\
  exists ch : Chan,
    chans Sample.both_failed !! 0%nat = Some ch /\
    received ch = [@results_of Sample.down 0 "q1"].
Proof.
  assert (H11 : 1 <= 1) by lia.
  assert (Hrun : @run Sample.down (Sample.one_by_one 2 8)
                   (snd (@QueryAll Sample.down Sample.two_queries
                           (start (Sample.context 1))))
                 = Some Sample.both_failed) by (vm_compute; reflexivity).
  assert (Hq : (Sample.two_queries ++ calls (Sample.one_by_one 2 8)) !! 0%nat
               = Some "q1"%string) by (vm_compute; reflexivity).
  assert (Hf : @failed (@outcome_of Sample.down 0 "q1") = true)
    by (vm_compute; reflexivity).
  destruct (@errors_go_to_the_collector Sample.down) as (_ & Hworker & Hrunning).
  destruct (Hrunning 1 _ _ _ H11 Hrun) as [Hdone _].
  assert (Hg : goroutines Sample.both_failed !! 0%nat
               = Some (Ready (Ret tt))) by (vm_compute; reflexivity).
  destruct (Hdone 0%nat "q1"%string _ Hq Hg eq_refl) as [Herrs Hch].
  refine (conj H11 (conj Hrun (conj Hq (conj Hf (conj _ (conj _ Hch)))))).
  - exact (proj2 (Hworker 0%nat "q1"%string 0%nat) Hf).
  - apply Herrs. left. vm_compute. reflexivity.
Defined.

Lemma transport_error_is_the_error_of_Do_witness :
  @query_request Sample.status500 "q1" = inl Sample.q1_request /\
  @query_result Sample.status500 0 "q1" =
    (JObject [("status"%string, JString "error");
              ("errorType"%string, JString "internal")], None) /\
  holding_at decode_op 0 (@events Sample.status500 _ 0 (@query Sample.status500 "q1"))
  = [1].
Proof.
  assert (Hreq : @query_request Sample.status500 "q1"
                 = inl Sample.q1_request) by (vm_compute; reflexivity).
  refine (conj Hreq _).
  pose proof (@transport_error_is_the_error_of_Do Sample.status500 0%nat
                "q1"%string Sample.q1_request Hreq) as H.
  vm_compute in H. vm_compute. exact H.
Defined.

Lemma one_POST_unless_request_fails_witness :
  @URL_Query Sample.ok (@Client_URL Sample.ok (@epQuery) None) = ∅ /\
  Values_Encode
    (Values_Set (@URL_Query Sample.ok (@Client_URL Sample.ok (@epQuery) None))
       "query" "rate(x[5m])")
  = "query=rate%28x%5B5m%5D%29"%string.
Proof.
  assert (H : @URL_Query Sample.ok (@Client_URL Sample.ok (@epQuery) None)
              = ∅) by (vm_compute; reflexivity).
  refine (conj H _).
  exact (proj2 (proj2 (proj2 (proj1 (proj2
           (@one_POST_unless_request_fails Sample.ok 0%nat
              "rate(x[5m])"%string 0%nat))))) H).
Defined.

(** *** Instances of the further properties *)

Lemma query_succeeds_iff_witness :
  snd (@query_result Sample.down 0 "q1")
  = Some (errorString
            "500 Error server returned HTTP status 500 fetching query q1") /\
  fst (@query_result Sample.down 0 "q1") = JNull.
Proof.
  assert (H : snd (@query_result Sample.down 0 "q1")
              = Some (errorString
                  "500 Error server returned HTTP status 500 fetching query q1"))
    by (vm_compute; reflexivity).
  exact (conj H (proj2 (@query_succeeds_iff Sample.down 0%nat "q1"%string)
                   _ H)).
Defined.

Lemma log_of_a_drained_batch_witness :
  @run Sample.ok (Sample.one_by_one 2 10)
    (snd (@QueryAll Sample.ok Sample.two_queries (start (Sample.context 1))))
  = Some Sample.both_answered /\
  all_done Sample.both_answered = true /\
  klog Sample.both_answered ≡ₚ
    [(3, "Warning 'slow query' fetching query 'q1'"%string);
     (3, "Warning 'slow query' fetching query 'q2'"%string)].
Proof.
  assert (Hrun : @run Sample.ok (Sample.one_by_one 2 10)
                   (snd (@QueryAll Sample.ok Sample.two_queries
                           (start (Sample.context 1))))
                 = Some Sample.both_answered) by (vm_compute; reflexivity).
  assert (Hdone : all_done Sample.both_answered = true)
    by (vm_compute; reflexivity).
  refine (conj Hrun (conj Hdone _)).
  pose proof (@log_of_a_drained_batch Sample.ok _ _ _ _ Hrun Hdone) as H.
  vm_compute in H. vm_compute. exact H.
Defined.

Lemma collector_of_a_drained_batch_witness :
  @run Sample.down (Sample.one_by_one 2 8)
    (snd (@QueryAll Sample.down Sample.two_queries (start (Sample.context 1))))
  = Some Sample.both_failed /\
  all_done Sample.both_failed = true /\
  Errors Sample.both_failed ≡ₚ
    [errorString "500 Error server returned HTTP status 500 fetching query q1";
     errorString "unexpected type of query result";
     errorString "500 Error server returned HTTP status 500 fetching query q2";
     errorString "unexpected type of query result"].
Proof.
  assert (Hrun : @run Sample.down (Sample.one_by_one 2 8)
                   (snd (@QueryAll Sample.down Sample.two_queries
                           (start (Sample.context 1))))
                 = Some Sample.both_failed) by (vm_compute; reflexivity).
  assert (Hdone : all_done Sample.both_failed = true)
    by (vm_compute; reflexivity).
  refine (conj Hrun (conj Hdone _)).
  pose proof (@collector_of_a_drained_batch Sample.down _ _ _ _ Hrun Hdone)
    as H.
  vm_compute in H. vm_compute. exact H.
Defined.

Lemma collector_holds_only_query_errors_witness :
  @run Sample.down (Sample.one_by_one 2 8)
    (snd (@QueryAll Sample.down Sample.two_queries (start (Sample.context 1))))
  = Some Sample.both_failed /\
  In (errorString
        "500 Error server returned HTTP status 500 fetching query q2")
     (Errors Sample.both_failed) /\
  exists (j : nat) (q : string),
    (Sample.two_queries ++ calls (Sample.one_by_one 2 8)) !! j = Some q /\
    (@promErr_of Sample.down j q
     = Some (errorString
               "500 Error server returned HTTP status 500 fetching query q2")
     \/ @parseErr_of Sample.down j q
        = Some (errorString
                  "500 Error server returned HTTP status 500 fetching query q2")).
Proof.
  assert (Hrun : @run Sample.down (Sample.one_by_one 2 8)
                   (snd (@QueryAll Sample.down Sample.two_queries
                           (start (Sample.context 1))))
                 = Some Sample.both_failed) by (vm_compute; reflexivity).
  assert (Hin : In (errorString
                 "500 Error server returned HTTP status 500 fetching query q2")
                  (Errors Sample.both_failed))
    by (vm_compute; auto).
  exact (conj Hrun (conj Hin
           (@collector_holds_only_query_errors Sample.down 1 _ _ _ _
              Hrun Hin))).
Defined.

Lemma no_permit_held_at_the_send_witness :
  0 <= 1 /\
  @run Sample.down (Sample.one_by_one 2 7)
    (snd (@QueryAll Sample.down Sample.two_queries (start (Sample.context 1))))
  = Some Sample.both_at_send /\
  forallb (fun g => is_done g || at_send g) (goroutines Sample.both_at_send)
  = true /\
  all_done Sample.both_at_send = false /\
  held (semaphore (ctx Sample.both_at_send)) = 0 /\
  inflight Sample.both_at_send = 0%nat.
Proof.
  assert (H01 : 0 <= 1) by lia.
  assert (Hrun : @run Sample.down (Sample.one_by_one 2 7)
                   (snd (@QueryAll Sample.down Sample.two_queries
                           (start (Sample.context 1))))
                 = Some Sample.both_at_send) by (vm_compute; reflexivity).
  assert (Hall : forallb (fun g => is_done g || at_send g)
                   (goroutines Sample.both_at_send) = true)
    by (vm_compute; reflexivity).
  refine (conj H01 (conj Hrun (conj Hall (conj _ _))));
    [vm_compute; reflexivity|].
  exact (@no_permit_held_at_the_send Sample.down 1 [] _ _ _ H01 Hrun Hall).
Defined.

Lemma inflight_covered_by_permits_witness :
  0 <= 1 /\
  @run Sample.ok [Step 0; Step 0]
    (snd (@QueryAll Sample.ok Sample.two_queries (start (Sample.context 1))))
  = Some Sample.one_in_flight /\
  Z.of_nat (inflight Sample.one_in_flight)
  <= held (semaphore (ctx Sample.one_in_flight)).
Proof.
  assert (H01 : 0 <= 1) by lia.
  assert (Hrun : @run Sample.ok [Step 0; Step 0]
                   (snd (@QueryAll Sample.ok Sample.two_queries
                           (start (Sample.context 1))))
                 = Some Sample.one_in_flight) by (vm_compute; reflexivity).
  exact (conj H01 (conj Hrun
           (@inflight_covered_by_permits Sample.ok 1 [] _ _ _ H01 Hrun))).
Defined.

Lemma drained_batch_state_witness :
  0 <= 1 /\
  @run Sample.down (Sample.one_by_one 2 8)
    (snd (@QueryAll Sample.down Sample.two_queries (start (Sample.context 1))))
  = Some Sample.both_failed /\
  all_done Sample.both_failed = true /\
  goroutines Sample.both_failed = [Ready (Ret tt); Ready (Ret tt)] /\
  chans Sample.both_failed = [mkChan [None] false; mkChan [None] false] /\
  semaphore (ctx Sample.both_failed) = mkSemaphore 1 0.
Proof.
  assert (H01 : 0 <= 1) by lia.
  assert (Hrun : @run Sample.down (Sample.one_by_one 2 8)
                   (snd (@QueryAll Sample.down Sample.two_queries
                           (start (Sample.context 1))))
                 = Some Sample.both_failed) by (vm_compute; reflexivity).
  assert (Hdone : all_done Sample.both_failed = true)
    by (vm_compute; reflexivity).
  refine (conj H01 (conj Hrun (conj Hdone _))).
  pose proof (@drained_batch_state Sample.down 1 [] _ _ _ H01 Hrun Hdone)
    as H.
  vm_compute in H. vm_compute. exact H.
Defined.

Lemma batch_can_always_be_drained_witness :
  1 <= 1 /\
  @run Sample.ok [Step 0; Step 0]
    (snd (@QueryAll Sample.ok Sample.two_queries (start (Sample.context 1))))
  = Some Sample.one_in_flight /\
  exists (js : list nat) (w' : World),
    @run Sample.ok (map Step js) Sample.one_in_flight = Some w' /\
    all_done w' = true /\
    length js = @remaining_ops Sample.ok Sample.one_in_flight.
Proof.
  assert (H11 : 1 <= 1) by lia.
  assert (Hrun : @run Sample.ok [Step 0; Step 0]
                   (snd (@QueryAll Sample.ok Sample.two_queries
                           (start (Sample.context 1))))
                 = Some Sample.one_in_flight) by (vm_compute; reflexivity).
  exact (conj H11 (conj Hrun
           (@batch_can_always_be_drained Sample.ok 1 [] _ _ _ H11 Hrun))).
Defined.

Lemma QueryAll_only_adds_witness :
  In 1%nat (elems (fst (@QueryAll Sample.ok Sample.three_queries
                          (start NewContext)))) /\
  chans (start NewContext) !! 1%nat = None /\
  chans (snd (@QueryAll Sample.ok Sample.three_queries (start NewContext)))
    !! 1%nat = Some (mkChan [] false).
Proof.
  assert (H : In 1%nat (elems (fst (@QueryAll Sample.ok Sample.three_queries
                                      (start NewContext)))))
    by (vm_compute; auto).
  refine (conj H _).
  exact (proj2 (proj2 (proj2 (proj2 (proj2 (proj2 (proj2 (proj2
           (@QueryAll_only_adds Sample.ok Sample.three_queries
              (start NewContext))))))))) 1%nat H).
Defined.

Lemma no_waiting_when_capacity_suffices_witness :
  Z.of_nat (length (Sample.two_queries ++ calls [Step 0; Step 0])) <= 2 /\
  @run Sample.ok [Step 0; Step 0]
    (snd (@QueryAll Sample.ok Sample.two_queries (start (Sample.context 2))))
  = Some Sample.one_in_flight_of_two /\
  goroutines Sample.one_in_flight_of_two !! 1%nat
  = Some (Ready (@worker Sample.ok "q2" 1%nat)) /\
  exists (ev : event) (w' : World),
    @step Sample.ok 1 Sample.one_in_flight_of_two = Some (ev, w').
Proof.
  assert (HN : Z.of_nat (length (Sample.two_queries
                                   ++ calls [Step 0; Step 0])) <= 2)
    by (vm_compute; discriminate).
  assert (Hrun : @run Sample.ok [Step 0; Step 0]
                   (snd (@QueryAll Sample.ok Sample.two_queries
                           (start (Sample.context 2))))
                 = Some Sample.one_in_flight_of_two)
    by (vm_compute; reflexivity).
  assert (Hg : goroutines Sample.one_in_flight_of_two !! 1%nat
               = Some (Ready (@worker Sample.ok "q2" 1%nat)))
    by (vm_compute; reflexivity).
  assert (Hnd : is_done (Ready (@worker Sample.ok "q2" 1%nat)) = false)
    by (vm_compute; reflexivity).
  exact (conj HN (conj Hrun (conj Hg
           (@no_waiting_when_capacity_suffices Sample.ok 2 [] _ _ _ 1%nat _
              HN Hrun Hg Hnd)))).
Defined.
